(** * A shallow embedding of the request dispatcher of [src/index.ts]

    The class [App] keeps a two-level [Map] from path to method to handler,
    an array of middleware and a state value.  All three are JavaScript
    objects that are reached through references, and [withState] makes two
    instances point to the same containers, so the embedding is over an
    explicit store of objects: a method of the class is a function on the
    store, and the [async] method [fetch] is a small state machine whose
    states are its suspension points.  The functions of the host (handlers
    and middleware) and the URL parser of the platform are parameters.

    The definitions come first, then the facts about the store and the
    registry, the invariants of a dispatch, and the properties of the
    specification, C1 to C10. *)

From stdpp Require Import gmap strings list fin_maps.

Set Warnings "-clear-no-such-hyp".

Open Scope string_scope.
Open Scope list_scope.
Open Scope nat_scope.

(** ** Values and objects *)

Definition loc := positive.
Bind Scope positive_scope with loc.

(** JavaScript values, as far as the dispatcher can tell them apart. *)
Inductive val :=
  | VUndefined
  | VBool (b : bool)
  | VNum (z : Z)
  | VStr (s : string)
  | VRef (l : loc).

Global Instance val_eq_dec : EqDecision val.
Proof. solve_decision. Defined.

(** [Request] and [Response] belong to the platform.  A response is kept as
    what its constructor was given: the body, the status (200 when the
    caller passes none) and the headers the caller passed. *)
Record Request := {
  req_url : string;
  req_method : string;
  req_headers : list (string * string);
  req_body : option string
}.

Record Response := {
  resp_body : string;
  resp_status : Z;
  resp_headers : list (string * string)
}.

(** Functions are compared by identity; a handler or a middleware is the
    reference of its function object. *)
Definition Handler := positive.
Definition Middleware := positive.
Bind Scope positive_scope with Handler Middleware.

Module Context.
(** [interface Context { req; data; state }] *)
Record t := {
  req : Request;
  data : val;
  state : val
}.
End Context.

(** The fields of an [App] instance: [#routes], [#middlewares], [state]. *)
Record AppObj := {
  routes : loc;
  middlewares : loc;
  state : val
}.

(** What a reference can point to. *)
Inductive cell :=
  | CObject (props : gmap string val)          (* a plain object: [{}] *)
  | COuterMap (m : gmap string loc)            (* Map<string, Map<..>> *)
  | CInnerMap (m : gmap string Handler)        (* Map<string, Handler> *)
  | CArray (xs : list Middleware)              (* Middleware[] *)
  | CContext (c : Context.t)
  | CApp (a : AppObj).

Abbreviation World := (gmap loc cell).

(** ** Reading and writing the store

    A private field of [App] always holds the container its initialiser or
    [withState] put there, so the reads below never meet a cell of another
    kind in a store built by the class; they are made total by reading a
    missing container as an empty one. *)

Definition alloc (w : World) (x : cell) : loc * World :=
  let l := fresh (dom w) in (l, <[l := x]> w).

Definition object_of (w : World) (l : loc) : gmap string val :=
  match w !! l with Some (CObject o) => o | _ => ∅ end.

Definition outer_of (w : World) (l : loc) : gmap string loc :=
  match w !! l with Some (COuterMap m) => m | _ => ∅ end.

Definition inner_of (w : World) (l : loc) : gmap string Handler :=
  match w !! l with Some (CInnerMap m) => m | _ => ∅ end.

Definition array_of (w : World) (l : loc) : list Middleware :=
  match w !! l with Some (CArray xs) => xs | _ => [] end.

Definition app_of (w : World) (l : loc) : AppObj :=
  match w !! l with
  | Some (CApp a) => a
  | _ => {| routes := l; middlewares := l; state := VUndefined |}
  end.

(** [o[k] = v] on the object a value refers to; a primitive has no
    properties to write. *)
Definition set_prop (target : val) (k : string) (v : val) (w : World) : World :=
  match target with
  | VRef l =>
      match w !! l with
      | Some (CObject o) => <[l := CObject (<[k := v]> o)]> w
      | _ => w
      end
  | _ => w
  end.

(** [o[k]] *)
Definition get_prop (target : val) (k : string) (w : World) : val :=
  match target with
  | VRef l => default VUndefined (object_of w l !! k)
  | _ => VUndefined
  end.

(** ** The class [App] *)

Module App.

(** [new App()]: the field initialisers [new Map()], [[]] and [{}]. *)
Definition new (w : World) : loc * World :=
  let '(r, w) := alloc w (COuterMap ∅) in
  let '(a, w) := alloc w (CArray []) in
  let '(s, w) := alloc w (CObject ∅) in
  alloc w (CApp {| routes := r; middlewares := a; state := VRef s |}).

(** [app.state = v] *)
Definition set_state (this : loc) (v : val) (w : World) : World :=
  let a := app_of w this in
  <[this := CApp {| routes := routes a; middlewares := middlewares a; state := v |}]> w.

Definition set_routes (this : loc) (r : loc) (w : World) : World :=
  let a := app_of w this in
  <[this := CApp {| routes := r; middlewares := middlewares a; state := state a |}]> w.

Definition set_middlewares (this : loc) (m : loc) (w : World) : World :=
  let a := app_of w this in
  <[this := CApp {| routes := routes a; middlewares := m; state := state a |}]> w.

Definition withState (this : loc) (st : val) (w : World) : loc * World :=
  let '(newApp, w) := new w in
  let w := set_routes newApp (routes (app_of w this)) w in
  let w := set_middlewares newApp (middlewares (app_of w this)) w in
  let w := set_state newApp st w in
  (newApp, w).

(** [this.#middlewares.push(middleware)] *)
Definition use (this : loc) (middleware : Middleware) (w : World) : World :=
  let arr := middlewares (app_of w this) in
  <[arr := CArray (array_of w arr ++ [middleware])]> w.

Definition addRoute (this : loc) (method path : string) (handler : Handler)
    (w : World) : World :=
  let r := routes (app_of w this) in
  let w :=
    if bool_decide (is_Some (outer_of w r !! path)) then w
    else
      let '(l, w) := alloc w (CInnerMap ∅) in
      <[r := COuterMap (<[path := l]> (outer_of w r))]> w in
  match outer_of w r !! path with
  | Some l => <[l := CInnerMap (<[method := handler]> (inner_of w l))]> w
  | None => w
  end.

Definition get (this : loc) (path : string) (handler : Handler) : World → World :=
  addRoute this "GET" path handler.

Definition post (this : loc) (path : string) (handler : Handler) : World → World :=
  addRoute this "POST" path handler.

Definition put (this : loc) (path : string) (handler : Handler) : World → World :=
  addRoute this "PUT" path handler.

Definition delete (this : loc) (path : string) (handler : Handler) : World → World :=
  addRoute this "DELETE" path handler.

Definition all (this : loc) (path : string) (handler : Handler) (w : World) : World :=
  let w := addRoute this "GET" path handler w in
  let w := addRoute this "POST" path handler w in
  let w := addRoute this "PUT" path handler w in
  addRoute this "DELETE" path handler w.

End App.

(** [lookup(path, method)]: the handler stored for a pair, if any. *)
Definition lookup_handler (w : World) (this : loc) (path method : string)
    : option Handler :=
  match outer_of w (routes (app_of w this)) !! path with
  | Some l => inner_of w l !! method
  | None => None
  end.

(** The middleware pipeline of an instance. *)
Definition pipeline (w : World) (this : loc) : list Middleware :=
  array_of w (middlewares (app_of w this)).

(** ** Host code and platform

    Handlers and middleware are functions of the host application.  Calling
    one runs it up to its first suspension: it has then returned ([Done]),
    thrown ([Raise]), or handed back a promise that is still pending
    ([Await]) together with what remains to run, which the event loop
    resumes later.  What a function does to the store is not restricted
    here. *)

Inductive status (K A : Type) :=
  | Done (a : A)
  | Raise (e : val)
  | Await (k : K).
Arguments Done {K A} a.
Arguments Raise {K A} e.
Arguments Await {K A} k.

(** The part of [new URL(s)] the dispatcher looks at. *)
Record URL := {
  pathname : string;
  search : string;
  hash : string
}.

Class Env (MwK HK : Type) := {
  mw_call : Middleware → loc → World → World * status MwK unit;
  mw_resume : MwK → World → World * status MwK unit;
  h_call : Handler → loc → World → World * status HK Response;
  h_resume : HK → World → World * status HK Response;
  (** [new URL(s)]; [None] when the constructor throws *)
  URL_parse : string → option URL;
  URL_error : string → val
}.

(** Calls made by the dispatcher, in the order they happen. *)
Inductive event :=
  | MwCalled (mw : Middleware) (c : loc)
  | MwReturned (mw : Middleware) (c : loc)
  | HandlerCalled (h : Handler) (c : loc).

(** [new Response("Not Found", { status: 404 })] *)
Definition notFound : Response :=
  {| resp_body := "Not Found"; resp_status := 404; resp_headers := [] |}.

(** The log of a pipeline that ran to its end on context [c]. *)
Definition calls (c : loc) (P : list Middleware) : list event :=
  P ≫= λ mw, [MwCalled mw c; MwReturned mw c].

Definition mw_called (log : list event) : list Middleware :=
  omap (λ e, match e with MwCalled mw _ => Some mw | _ => None end) log.

(** The context of a dispatch: the location [start] gives it, and the
    location of its scratch object. *)
Definition scratch_loc (w : World) : loc := fresh (dom w).
Definition context_loc (w : World) : loc :=
  fresh (dom (<[scratch_loc w := CObject ∅]> w)).

(** Host code reaches [#routes] and [#middlewares] through the methods of
    the class only, and JavaScript has no way to free an object: a stretch
    of host code leaves every cell allocated and can only append to an
    array of middleware. *)
Definition keeps (w w' : World) : Prop :=
  dom w ⊆ dom w' ∧ ∀ l, array_of w l `prefix_of` array_of w' l.

Section fetch.
Context `{E : Env MwK HK}.

(** The locals of one activation of [fetch] that live across an [await]:
    [this], [req], [c] and the array the [for ... of] iterates. *)
Record frame := {
  f_this : loc;
  f_req : Request;
  f_c : loc;
  f_mws : loc
}.

(** The promise returned by [fetch], with the suspension point its
    activation is waiting at. *)
Inductive task :=
  | Resume (f : frame) (i : nat)      (* the awaited middleware has settled;
                                         the loop continues at index [i] *)
  | AwaitMw (f : frame) (i : nat) (mw : Middleware) (k : MwK)
  | AwaitH (k : HK)
  | Returning (r : Response)          (* the awaited handler has settled on
                                         [r]; the activation returns it at
                                         its next turn *)
  | Resolved (r : Response)
  | Rejected (e : val).

(** [return await handler(c)] once the handler has run a stretch.  When
    the handler has returned, the [await] still suspends the activation
    once: the promise of [fetch] gets the response at the next turn. *)
Definition after_handler (s : status HK Response) : task :=
  match s with
  | Done r => Returning r
  | Raise e => Rejected e
  | Await k => AwaitH k
  end.

(** Lines 105-115: the lookup and the call of the handler. *)
Definition route (f : frame) (w : World) : World * task * list event :=
  match URL_parse (req_url (f_req f)) with
  | None => (w, Rejected (URL_error (req_url (f_req f))), [])
  | Some url =>
      let path := pathname url in
      let method := req_method (f_req f) in
      match outer_of w (routes (app_of w (f_this f))) !! path with
      | Some l =>
          if bool_decide (is_Some (inner_of w l !! method)) then
            match inner_of w l !! method with
            | Some handler =>
                let '(w, s) := h_call handler (f_c f) w in
                (w, after_handler s, [HandlerCalled handler (f_c f)])
            | None => (w, Resolved notFound, [])
            end
          else (w, Resolved notFound, [])
      | None => (w, Resolved notFound, [])
      end
  end.

(** [await mw(c)] once the middleware has run a stretch. *)
Definition after_mw (f : frame) (i : nat) (mw : Middleware)
    (s : status MwK unit) : task * list event :=
  match s with
  | Done _ => (Resume f (S i), [MwReturned mw (f_c f)])
  | Raise e => (Rejected e, [])
  | Await k => (AwaitMw f i mw k, [])
  end.

(** One turn of [for (const mw of this.#middlewares)]: the array iterator
    reads the array as it is now. *)
Definition for_of (f : frame) (i : nat) (w : World) : World * task * list event :=
  match array_of w (f_mws f) !! i with
  | Some mw =>
      let '(w, s) := mw_call mw (f_c f) w in
      let '(t, evs) := after_mw f i mw s in
      (w, t, MwCalled mw (f_c f) :: evs)
  | None => route f w
  end.

(** Lines 94-98 and the start of the loop: the context with its new
    scratch object, and the iterator over [this.#middlewares]. *)
Definition start (this : loc) (req : Request) (w : World) : World * frame :=
  let '(d, w) := alloc w (CObject ∅) in
  let '(c, w) :=
    alloc w (CContext {| Context.req := req; Context.data := VRef d;
                         Context.state := state (app_of w this) |}) in
  (w, {| f_this := this; f_req := req; f_c := c;
         f_mws := middlewares (app_of w this) |}).

(** The call [this.fetch(req)]: what runs before the first [await]. *)
Definition fetch (this : loc) (req : Request) (w : World)
    : World * task * list event :=
  let '(w, f) := start this req w in
  for_of f 0 w.

(** The event loop runs the activation on from its suspension point. *)
Definition resume (t : task) (w : World) : World * task * list event :=
  match t with
  | Resume f i => for_of f i w
  | AwaitMw f i mw k =>
      let '(w, s) := mw_resume k w in
      let '(t, evs) := after_mw f i mw s in
      (w, t, evs)
  | AwaitH k =>
      let '(w, s) := h_resume k w in
      (w, after_handler s, [])
  | Returning r => (w, Resolved r, [])
  | Resolved _ | Rejected _ => (w, t, [])
  end.

(** [n] turns of the event loop with no other task in between, the log
    growing at its end. *)
Fixpoint turns (n : nat) (x : World * task * list event)
    : World * task * list event :=
  match n with
  | 0 => x
  | S n =>
      let '(w, t, log) := x in
      let '(w, t, evs) := resume t w in
      turns n (w, t, log ++ evs)
  end.

(** One dispatch taken alone, observed after [n] stretches: [run 0] is the
    point where the context exists and the loop is about to start,
    [run 1] is where the call [fetch] returns its promise. *)
Definition run (n : nat) (this : loc) (req : Request) (w : World)
    : World * task * list event :=
  let '(w, f) := start this req w in
  turns n (w, Resume f 0, []).

(** The promise of a handler, [m] turns after the call. *)
Fixpoint settle (m : nat) (x : World * status HK Response)
    : World * status HK Response :=
  match m with
  | 0 => x
  | S m =>
      match x with
      | (w, Await k) => settle m (h_resume k w)
      | _ => x
      end
  end.

(** The activation of [fetch] at [return await handler(c)], [m] turns
    after the call of the handler, whose promise was [x] at the call: it
    waits for the promise, and returns the response one turn after the
    promise has it. *)
Definition return_await (m : nat) (x : World * status HK Response) : task :=
  match m with
  | 0 => after_handler x.2
  | S m' =>
      match (settle m' x).2 with
      | Done r => Resolved r
      | _ => after_handler (settle m x).2
      end
  end.

(** The promise of a middleware, [m] turns after the call. *)
Fixpoint mw_settle (m : nat) (x : World * status MwK unit)
    : World * status MwK unit :=
  match m with
  | 0 => x
  | S m =>
      match x with
      | (w, Await k) => mw_settle m (mw_resume k w)
      | _ => x
      end
  end.

(** Requests in flight together: each entry is the scratch object made for
    a dispatch and the promise of that dispatch.  A request may arrive at
    any time, the event loop may run any pending activation next, and
    other code of the host may run in between. *)
Inductive pool_step
    : World * list (loc * task) → World * list (loc * task) → Prop :=
  | pool_arrive w ts this req w' t evs :
      fetch this req w = (w', t, evs) →
      pool_step (w, ts) (w', ts ++ [(scratch_loc w, t)])
  | pool_turn w ts i d t w' t' evs :
      ts !! i = Some (d, t) →
      resume t w = (w', t', evs) →
      pool_step (w, ts) (w', <[i := (d, t')]> ts)
  | pool_host w ts w' :
      keeps w w' →
      pool_step (w, ts) (w', ts).

(** What holds of a dispatch at each of its suspension points.  [f0] is
    its frame and [P0] the pipeline when it started. *)
Definition past_loop (f0 : frame) (P0 : list Middleware) (w : World)
    (log : list event) : Prop :=
  ∃ P hs, P0 `prefix_of` P ∧ P `prefix_of` array_of w (f_mws f0)
    ∧ log = calls (f_c f0) P ++ hs
    ∧ (hs = [] ∨ ∃ h, hs = [HandlerCalled h (f_c f0)]).

Definition in_loop (f0 : frame) (w : World) (log : list event) : Prop :=
  ∃ i mw, array_of w (f_mws f0) !! i = Some mw
    ∧ log = calls (f_c f0) (take i (array_of w (f_mws f0))) ++ [MwCalled mw (f_c f0)].

Definition order_inv (f0 : frame) (P0 : list Middleware)
    (x : World * task * list event) : Prop :=
  let '(w, t, log) := x in
  P0 `prefix_of` array_of w (f_mws f0) ∧
  match t with
  | Resume f i =>
      f = f0 ∧ i ≤ length (array_of w (f_mws f0))
      ∧ log = calls (f_c f0) (take i (array_of w (f_mws f0)))
  | AwaitMw f i mw k =>
      f = f0 ∧ array_of w (f_mws f0) !! i = Some mw
      ∧ log = calls (f_c f0) (take i (array_of w (f_mws f0))) ++ [MwCalled mw (f_c f0)]
  | AwaitH _ | Returning _ | Resolved _ => past_loop f0 P0 w log
  | Rejected _ => in_loop f0 w log ∨ past_loop f0 P0 w log
  end.

(** The scratch objects of the requests in flight are allocated and no
    two of them are the same object. *)
Definition pool_inv (x : World * list (loc * task)) : Prop :=
  NoDup x.2.*1 ∧ ∀ d, d ∈ x.2.*1 → d ∈ dom x.1.

(** While the loop runs, the activation still has the frame it started
    with and no handler has been called. *)
Definition loop_inv (f0 : frame) (x : World * task * list event) : Prop :=
  match x.1.2 with
  | Resume f _ | AwaitMw f _ _ _ =>
      f = f0 ∧ ∀ h c, HandlerCalled h c ∉ x.2
  | _ => True
  end.

(** Host code whose middleware return at their call and register no
    middleware. *)
Definition synchronous : Prop :=
  ∀ mw c w, ∃ w', mw_call mw c w = (w', Done ()) ∧ ∀ l, array_of w' l = array_of w l.

(** A middleware that completes: called on any context in any store, it
    returns after finitely many turns without having thrown, and it
    registers no middleware. *)
Definition completes (mw : Middleware) : Prop :=
  ∀ c w, ∃ m w',
    mw_settle m (mw_call mw c w) = (w', Done ()) ∧ ∀ l, array_of w' l = array_of w l.

(** Host code whose middleware leave every binding of every registry as
    it is. *)
Definition leaves_registry : Prop :=
  ∀ mw c w a path method,
    lookup_handler (mw_call mw c w).1 a path method = lookup_handler w a path method.

End fetch.

Arguments task : clear implicits.

(** ** Stores built by the class

    What [new App()] establishes and every method keeps: the instance and
    its two containers exist, every path of the outer map has a map of its
    own. *)
Record wf_app (w : World) (this : loc) : Prop := {
  wf_this : ∃ a, w !! this = Some (CApp a);
  wf_routes : ∃ m, w !! routes (app_of w this) = Some (COuterMap m);
  wf_inner : ∀ p l, outer_of w (routes (app_of w this)) !! p = Some l →
               ∃ im, w !! l = Some (CInnerMap im);
  wf_inj : ∀ p1 p2 l, outer_of w (routes (app_of w this)) !! p1 = Some l →
               outer_of w (routes (app_of w this)) !! p2 = Some l → p1 = p2;
  wf_mws : ∃ xs, w !! middlewares (app_of w this) = Some (CArray xs)
}.

(** Host code that keeps to the methods of the class: see [keeps]. *)
Class Encapsulated `(E : Env MwK HK) : Prop := {
  mw_call_keeps : ∀ mw c w, keeps w (mw_call mw c w).1;
  mw_resume_keeps : ∀ k w, keeps w (mw_resume k w).1;
  h_call_keeps : ∀ h c w, keeps w (h_call h c w).1;
  h_resume_keeps : ∀ k w, keeps w (h_resume k w).1
}.

(** A store extends another when it keeps every cell of it. *)
Definition extends (w w' : World) : Prop :=
∀ (l : loc) (y : cell), w !! l = Some y → w' !! l = Some y.





(** Two well-formed instances with the same [#routes] and the same
    [#middlewares]. *)
Definition shared (w : World) (this n : loc) : Prop :=
  wf_app w this ∧ wf_app w n
  ∧ routes (app_of w n) = routes (app_of w this)
  ∧ middlewares (app_of w n) = middlewares (app_of w this).

(** The four methods [all] registers. *)
Definition all_methods : list string := ["GET"; "POST"; "PUT"; "DELETE"].

(** [all] as the specification words it: the four single registrations. *)
Definition all_as_four_registrations (this : loc) (path : string) (h : Handler)
    (w : World) : World :=
  App.delete this path h (App.put this path h (App.post this path h (App.get this path h w))).

(** ** A host application

    A small host in the manner of the example at the end of [index.ts],
    used to run the dispatcher on concrete requests.  Middleware [1] is
    [c => { c.data.t = 1 }], [2] throws, [3] is asynchronous and sets
    [c.data.u] after its first suspension, [4] writes the shared state;
    handler [10] answers ["hi"] and reports whether it saw [c.data.t],
    [11] answers with a status and a header of its own, [12] throws and
    [13] is asynchronous. *)
Module Demo.

Definition data_of (w : World) (c : loc) : val :=
  match w !! c with Some (CContext x) => Context.data x | _ => VUndefined end.

Definition state_of (w : World) (c : loc) : val :=
  match w !! c with Some (CContext x) => Context.state x | _ => VUndefined end.

Definition mw_call (mw : Middleware) (c : loc) (w : World) : World * status loc unit :=
  match mw with
  | 1 => (set_prop (data_of w c) "t" (VNum 1) w, Done ())
  | 2 => (w, Raise (VStr "boom"))
  | 3 => (w, Await c)
  | 4 => (set_prop (state_of w c) "version" (VStr "1.0.0") w, Done ())
  | _ => (w, Done ())
  end%positive.

Definition mw_resume (c : loc) (w : World) : World * status loc unit :=
  (set_prop (data_of w c) "u" (VNum 2) w, Done ()).

Definition hi (w : World) (c : loc) : Response :=
  {| resp_body := "hi"; resp_status := 200;
     resp_headers :=
       if decide (get_prop (data_of w c) "t" w = VNum 1) then [("x-t", "1")] else [] |}.

Definition created : Response :=
  {| resp_body := "{}"; resp_status := 201;
     resp_headers := [("Content-Type", "application/json")] |}.

Definition late : Response :=
  {| resp_body := "late"; resp_status := 200; resp_headers := [] |}.

Definition h_call (h : Handler) (c : loc) (w : World) : World * status loc Response :=
  match h with
  | 10 => (w, Done (hi w c))
  | 11 => (w, Done created)
  | 12 => (w, Raise (VStr "handler failed"))
  | 13 => (w, Await c)
  | _ => (w, Done late)
  end%positive.

Definition h_resume (c : loc) (w : World) : World * status loc Response :=
  (w, Done late).

(** A stand-in for the URL parser of the platform: [http://localhost] and
    then a path up to the first [?]. *)
Fixpoint split_query (s : string) : string * string :=
  match s with
  | EmptyString => (EmptyString, EmptyString)
  | String a s' =>
      if String.eqb (String a EmptyString) "?" then (EmptyString, s)
      else let '(p, q) := split_query s' in (String a p, q)
  end.

Definition URL_parse (s : string) : option URL :=
  if String.prefix "http://localhost" s then
    let '(p, q) := split_query (String.substring 16 (String.length s - 16) s) in
    Some {| pathname := if String.eqb p EmptyString then "/" else p;
            search := q; hash := EmptyString |}
  else None.

Definition URL_error (s : string) : val :=
  VStr (String.append "TypeError: Invalid URL: " s).

Definition env : Env loc loc :=
  Build_Env loc loc mw_call mw_resume h_call h_resume URL_parse URL_error.

(** A host all of whose middleware are [c => { c.data.t = 1 }]. *)
Definition sync_env : Env loc loc :=
  Build_Env loc loc (λ _ c w, (set_prop (data_of w c) "t" (VNum 1) w, Done ()))
    mw_resume h_call h_resume URL_parse URL_error.

(** [const app = new App(); app.use(1); app.get("/", 10)] *)
Definition app : loc := (App.new ∅).1.
Definition world : World := App.get app "/" 10 (App.use app 1 (App.new ∅).2).

Definition request (method url : string) : Request :=
  {| req_url := url; req_method := method; req_headers := []; req_body := None |}.

End Demo.

(** ** The setup phase as data

    The registration surface of the class, as a host uses it before it
    serves: [use], [get], [post], [put], [delete] and [all], all called on
    the same instance. *)
Inductive public_op :=
  | PUse (mw : Middleware)
  | PGet (path : string) (h : Handler)
  | PPost (path : string) (h : Handler)
  | PPut (path : string) (h : Handler)
  | PDelete (path : string) (h : Handler)
  | PAll (path : string) (h : Handler).

Definition public (this : loc) (op : public_op) (w : World) : World :=
  match op with
  | PUse mw => App.use this mw w
  | PGet path h => App.get this path h w
  | PPost path h => App.post this path h w
  | PPut path h => App.put this path h w
  | PDelete path h => App.delete this path h w
  | PAll path h => App.all this path h w
  end.

Definition setup (this : loc) (ops : list public_op) (w : World) : World :=
  foldl (λ w op, public this op w) w ops.

(** What the calls say, without a store: the handler a call binds to a
    pair, the last handler a list of calls binds to it, and the middleware
    a list of calls adds. *)
Definition binds (op : public_op) (path method : string) : option Handler :=
  match op with
  | PUse _ => None
  | PGet p h => if decide (path = p ∧ method = "GET") then Some h else None
  | PPost p h => if decide (path = p ∧ method = "POST") then Some h else None
  | PPut p h => if decide (path = p ∧ method = "PUT") then Some h else None
  | PDelete p h => if decide (path = p ∧ method = "DELETE") then Some h else None
  | PAll p h => if decide (path = p ∧ method ∈ all_methods) then Some h else None
  end.

Definition last_binding (ops : list public_op) (path method : string)
    : option Handler :=
  foldl (λ acc op, match binds op path method with Some h => Some h | None => acc end)
    None ops.

Definition used (ops : list public_op) : list Middleware :=
  omap (λ op, match op with PUse mw => Some mw | _ => None end) ops.

(** Two instances none of whose containers is a container of the other. *)
Definition disjoint_apps (w : World) (a b : loc) : Prop :=
  routes (app_of w a) ≠ routes (app_of w b)
  ∧ middlewares (app_of w a) ≠ middlewares (app_of w b)
  ∧ ∀ p p' l, outer_of w (routes (app_of w a)) !! p = Some l →
              outer_of w (routes (app_of w b)) !! p' ≠ Some l.

(** The cells an instance is made of: itself, its two containers and the
    maps of its paths. *)
Definition owns (w : World) (a : loc) (x : loc) : Prop :=
  x = a ∨ x = routes (app_of w a) ∨ x = middlewares (app_of w a)
  ∨ ∃ p, outer_of w (routes (app_of w a)) !! p = Some x.

(** Calls on several instances, in the order they are made, and the calls
    among them that are made on one instance. *)
Definition setup_each (ops : list (loc * public_op)) (w : World) : World :=
  foldl (λ w op, public op.1 op.2 w) w ops.

Definition own_ops (a : loc) (ops : list (loc * public_op)) : list public_op :=
  omap (λ op, if decide (op.1 = a) then Some op.2 else None) ops.

(** [app.withState(s1).withState(s2)...]: each instance is made from the
    one before; the result lists them in the order they are made. *)
Fixpoint withStates (this : loc) (sts : list val) (w : World) : list loc * World :=
  match sts with
  | [] => ([], w)
  | st :: sts =>
      let '(n, w) := App.withState this st w in
      let '(ns, w) := withStates n sts w in
      (n :: ns, w)
  end.

(** Host code that writes nothing to the store. *)
Definition quiet `{E : Env MwK HK} : Prop :=
  (∀ mw c w, (mw_call mw c w).1 = w)
  ∧ (∀ k w, (mw_resume k w).1 = w)
  ∧ (∀ h c w, (h_call h c w).1 = w)
  ∧ (∀ k w, (h_resume k w).1 = w).

(** A host of that kind: its middleware only wait (middleware [3]) or
    return, its handlers are those of [Demo]. *)
Module Quiet.

Definition mw_call (mw : Middleware) (c : loc) (w : World) : World * status loc unit :=
  match mw with
  | 3 => (w, Await c)
  | _ => (w, Done ())
  end%positive.

Definition mw_resume (c : loc) (w : World) : World * status loc unit :=
  (w, Done ()).

Definition env : Env loc loc :=
  Build_Env loc loc mw_call mw_resume Demo.h_call Demo.h_resume
    Demo.URL_parse Demo.URL_error.

End Quiet.


(** ** Facts about the store *)

Lemma fresh_None (w : World) : w !! fresh (dom w) = None.
Proof. apply not_elem_of_dom, is_fresh. Qed.

Lemma fresh_ne (w : World) (l : loc) (x : cell) :
  w !! l = Some x → l ≠ fresh (dom w).
Proof. intros Hl ->. by rewrite fresh_None in Hl. Qed.

Lemma app_of_Some w l a : w !! l = Some (CApp a) → app_of w l = a.
Proof. unfold app_of. by intros ->. Qed.

Lemma outer_of_Some w l m : w !! l = Some (COuterMap m) → outer_of w l = m.
Proof. unfold outer_of. by intros ->. Qed.

Lemma inner_of_Some w l m : w !! l = Some (CInnerMap m) → inner_of w l = m.
Proof. unfold inner_of. by intros ->. Qed.

Lemma array_of_Some w l xs : w !! l = Some (CArray xs) → array_of w l = xs.
Proof. unfold array_of. by intros ->. Qed.

(** A reader of one location does not see a write to another one. *)
Lemma app_of_insert_ne w l l' x : l ≠ l' → app_of (<[l := x]> w) l' = app_of w l'.
Proof. intros. unfold app_of. by rewrite lookup_insert_ne. Qed.

Lemma outer_of_insert_ne w l l' x : l ≠ l' → outer_of (<[l := x]> w) l' = outer_of w l'.
Proof. intros. unfold outer_of. by rewrite lookup_insert_ne. Qed.

Lemma inner_of_insert_ne w l l' x : l ≠ l' → inner_of (<[l := x]> w) l' = inner_of w l'.
Proof. intros. unfold inner_of. by rewrite lookup_insert_ne. Qed.

Lemma app_of_insert_eq w l a : app_of (<[l := CApp a]> w) l = a.
Proof. unfold app_of. by rewrite lookup_insert_eq. Qed.

(** [set_prop] writes one object and nothing else. *)
Lemma set_prop_lookup_ne target k v w l :
  target ≠ VRef l → set_prop target k v w !! l = w !! l.
Proof.
  intros Hne. unfold set_prop. destruct target as [| | | |l']; try done.
  destruct (w !! l') as [[]|] eqn:E; try done.
  rewrite lookup_insert_ne; [done|congruence].
Qed.

Lemma set_prop_dom target k v w : dom (set_prop target k v w) = dom w.
Proof.
  unfold set_prop. destruct target as [| | | |l]; try done.
  destruct (w !! l) as [[]|] eqn:E; try done.
  by apply dom_insert_lookup_L.
Qed.

Lemma set_prop_array target k v w l :
  array_of (set_prop target k v w) l = array_of w l.
Proof.
  unfold set_prop. destruct target as [| | | |l']; try done.
  destruct (w !! l') as [[]|] eqn:E; try done.
  unfold array_of. destruct (decide (l' = l)) as [->|].
  - by rewrite lookup_insert_eq, E.
  - by rewrite lookup_insert_ne.
Qed.

(** ** The registry *)

Section registry.
Implicit Types (w : World) (this that : loc) (method path : string) (h : Handler).

Lemma addRoute_old this method path h w l :
  outer_of w (routes (app_of w this)) !! path = Some l →
  App.addRoute this method path h w
  = <[l := CInnerMap (<[method := h]> (inner_of w l))]> w.
Proof.
  intros E. unfold App.addRoute.
  rewrite bool_decide_true by eauto. by rewrite E.
Qed.

Lemma addRoute_new this method path h w om :
  w !! routes (app_of w this) = Some (COuterMap om) →
  om !! path = None →
  App.addRoute this method path h w
  = <[fresh (dom w) := CInnerMap {[method := h]}]>
      (<[routes (app_of w this) := COuterMap (<[path := fresh (dom w)]> om)]>
         (<[fresh (dom w) := CInnerMap ∅]> w)).
Proof.
  intros Er E. pose proof (fresh_ne _ _ _ Er) as Hne.
  unfold App.addRoute, alloc.
  rewrite (outer_of_Some _ _ _ Er).
  rewrite bool_decide_false by (rewrite E; by intros [??]).
  rewrite (outer_of_insert_ne _ (fresh (dom w))) by congruence.
  rewrite (outer_of_Some _ _ _ Er).
  unfold outer_of at 1. rewrite lookup_insert_eq, lookup_insert_eq.
  unfold inner_of. rewrite lookup_insert_ne by done.
  by rewrite lookup_insert_eq, insert_empty.
Qed.

(** Registration touches no instance. *)
Lemma addRoute_app this method path h w x a :
  wf_app w this → w !! x = Some (CApp a) →
  App.addRoute this method path h w !! x = Some (CApp a).
Proof.
  intros [_ [om Er] Hin _ _] Hx.
  destruct (outer_of w (routes (app_of w this)) !! path) as [l|] eqn:E.
  - rewrite (addRoute_old _ _ _ _ _ _ E).
    destruct (Hin _ _ E) as [im Hl].
    rewrite lookup_insert_ne; [done|congruence].
  - rewrite (outer_of_Some _ _ _ Er) in E.
    rewrite (addRoute_new _ _ _ _ _ _ Er E).
    pose proof (fresh_ne _ _ _ Hx).
    rewrite !lookup_insert_ne; [done| |congruence|]; congruence.
Qed.

Lemma addRoute_array this method path h w x :
  wf_app w this → array_of (App.addRoute this method path h w) x = array_of w x.
Proof.
  intros [_ [om Er] Hin _ _].
  destruct (outer_of w (routes (app_of w this)) !! path) as [l|] eqn:E.
  - rewrite (addRoute_old _ _ _ _ _ _ E).
    destruct (Hin _ _ E) as [im Hl]. unfold array_of.
    destruct (decide (l = x)) as [->|]; [by rewrite lookup_insert_eq, Hl|].
    by rewrite lookup_insert_ne.
  - rewrite (outer_of_Some _ _ _ Er) in E.
    rewrite (addRoute_new _ _ _ _ _ _ Er E). unfold array_of.
    destruct (decide (fresh (dom w) = x)) as [<-|];
      [by rewrite lookup_insert_eq, fresh_None|].
    rewrite lookup_insert_ne by done.
    destruct (decide (routes (app_of w this) = x)) as [<-|];
      [by rewrite lookup_insert_eq, Er|].
    by rewrite !lookup_insert_ne.
Qed.

(** Reading the registry through any instance that holds the same outer
    map, after a registration through [this]. *)
Lemma lookup_addRoute this that method path h w a path' method' :
  wf_app w this → w !! that = Some (CApp a) →
  routes a = routes (app_of w this) →
  lookup_handler (App.addRoute this method path h w) that path' method'
  = if decide (path' = path ∧ method' = method) then Some h
    else lookup_handler w that path' method'.
Proof.
  intros Hwf Hthat Hr. unfold lookup_handler.
  rewrite (app_of_Some _ _ _ (addRoute_app _ method path h _ _ _ Hwf Hthat)).
  rewrite (app_of_Some _ _ _ Hthat), Hr.
  destruct Hwf as [_ [om Er] Hin Hinj _].
  rewrite (outer_of_Some _ _ _ Er) in Hin, Hinj.
  rewrite (outer_of_Some _ _ _ Er).
  destruct (outer_of w (routes (app_of w this)) !! path) as [l|] eqn:E.
  - rewrite (addRoute_old _ _ _ _ _ _ E).
    rewrite (outer_of_Some _ _ _ Er) in E.
    destruct (Hin _ _ E) as [im Hl].
    assert (routes (app_of w this) ≠ l) by congruence.
    rewrite outer_of_insert_ne, (outer_of_Some _ _ _ Er) by done.
    destruct (om !! path') as [l'|] eqn:E'.
    + destruct (decide (l = l')) as [<-|Hll].
      * assert (path' = path) as -> by eauto.
        unfold inner_of at 1. rewrite lookup_insert_eq, lookup_insert.
        rewrite (inner_of_Some _ _ _ Hl).
        destruct (decide (method = method')), (decide (_ ∧ _));
          first [done | exfalso; intuition congruence].
      * rewrite inner_of_insert_ne by done.
        case_decide as Hd; [|done]. destruct Hd as [-> _]. congruence.
    + case_decide as Hd; [|done]. destruct Hd as [-> _]. congruence.
  - rewrite (outer_of_Some _ _ _ Er) in E.
    rewrite (addRoute_new _ _ _ _ _ _ Er E).
    pose proof (fresh_ne _ _ _ Er) as Hne.
    rewrite outer_of_insert_ne by done.
    unfold outer_of at 1. rewrite lookup_insert_eq, lookup_insert.
    case_decide as Hp.
    + subst path'. unfold inner_of at 1.
      rewrite lookup_insert_eq, lookup_singleton.
      destruct (decide (method = method')), (decide (_ ∧ _));
        rewrite ?E; first [done | exfalso; intuition congruence].
    + destruct (om !! path') as [l'|] eqn:E'.
      * destruct (Hin _ _ E') as [im Hl'].
        pose proof (fresh_ne _ _ _ Hl').
        assert (routes (app_of w this) ≠ l') by congruence.
        rewrite !inner_of_insert_ne by done.
        case_decide; naive_solver.
      * case_decide; naive_solver.
Qed.

End registry.

(** ** Allocation and well-formed instances *)

Section allocation.
Implicit Types (w : World) (l n this : loc) (x y : cell) (a : AppObj).

Lemma alloc_old w x l y : w !! l = Some y → (alloc w x).2 !! l = Some y.
Proof.
intros Hl. unfold alloc; simpl.
rewrite lookup_insert_ne; [done|]. intros <-. by rewrite fresh_None in Hl.
Qed.

Lemma alloc_fresh w x : w !! (alloc w x).1 = None.
Proof. apply fresh_None. Qed.

Lemma extends_refl w : extends w w.
Proof. by intros ??. Qed.

Lemma extends_trans (w1 w2 w3 : World) : extends w1 w2 → extends w2 w3 → extends w1 w3.
Proof. intros H12 H23 l y Hl. eauto. Qed.

Lemma extends_alloc w x : extends w (alloc w x).2.
Proof. intros l y. apply alloc_old. Qed.

Lemma wf_app_extends w (w' : World) this : wf_app w this → extends w w' → wf_app w' this.
Proof.
intros [[a Ha] [om Er] Hin Hinj [xs Hxs]] Hext.
rewrite (app_of_Some _ _ _ Ha) in *.
rewrite (outer_of_Some _ _ _ Er) in *.
pose proof (Hext _ _ Ha) as Ha'. pose proof (Hext _ _ Er) as Er'.
split; rewrite ?(app_of_Some _ _ _ Ha'), ?(outer_of_Some _ _ _ Er'); eauto.
intros p l Hp. destruct (Hin _ _ Hp) as [im Him]. eauto.
Qed.

(** An instance that holds the containers of a well-formed one is
  well-formed. *)
Lemma wf_app_alias w this n a :
wf_app w this → w !! n = Some (CApp a) →
routes a = routes (app_of w this) →
middlewares a = middlewares (app_of w this) →
wf_app w n.
Proof.
intros [_ Hr Hin Hinj Hm] Hn Ha Hb.
split; rewrite ?(app_of_Some _ _ _ Hn), ?Ha, ?Hb; eauto.
Qed.

Lemma new_extends w : extends w (App.new w).2.
Proof.
unfold App.new, alloc; simpl.
repeat (eapply extends_trans; [|apply extends_alloc]). apply extends_refl.
Qed.

Lemma new_cell w :
∃ r arr s, (App.new w).2 !! (App.new w).1
         = Some (CApp {| routes := r; middlewares := arr; state := VRef s |})
  ∧ (App.new w).2 !! r = Some (COuterMap ∅)
  ∧ (App.new w).2 !! arr = Some (CArray [])
  ∧ (App.new w).2 !! s = Some (CObject ∅)
  ∧ w !! r = None ∧ w !! arr = None ∧ w !! s = None
  ∧ w !! (App.new w).1 = None.
Proof.
unfold App.new, alloc; simpl.
set (r := fresh (dom w)). set (w1 := <[r := _]> w).
set (arr := fresh (dom w1)). set (w2 := <[arr := _]> w1).
set (s := fresh (dom w2)). set (w3 := <[s := _]> w2).
set (n := fresh (dom w3)).
assert (w1 !! r = Some (COuterMap ∅)) as H1 by apply lookup_insert_eq.
assert (w2 !! arr = Some (CArray [])) as H2 by apply lookup_insert_eq.
assert (w3 !! s = Some (CObject ∅)) as H3 by apply lookup_insert_eq.
assert (extends w w1) as E1 by apply (extends_alloc w).
assert (extends w1 w2) as E2 by apply (extends_alloc w1).
assert (extends w2 w3) as E3 by apply (extends_alloc w2).
assert (extends w3 (<[n := CApp {| routes := r; middlewares := arr; state := VRef s |}]> w3))
  as E4 by apply (extends_alloc w3).
assert (w1 !! arr = None) as F1 by apply fresh_None.
assert (w2 !! s = None) as F2 by apply fresh_None.
assert (w3 !! n = None) as F3 by apply fresh_None.
exists r, arr, s. split_and!.
- apply lookup_insert_eq.
- eauto.
- eauto.
- eauto.
- apply fresh_None.
- destruct (w !! arr) eqn:E; [|done]. apply E1 in E. congruence.
- destruct (w !! s) eqn:E; [|done]. apply E1, E2 in E. congruence.
- destruct (w !! n) eqn:E; [|done]. apply E1, E2, E3 in E. congruence.
Qed.

Lemma new_wf w : wf_app (App.new w).2 (App.new w).1.
Proof.
destruct (new_cell w) as (r & arr & s & Hn & Hr & Ha & _).
destruct (App.new w) as [n w']; simpl in *.
split; rewrite ?(app_of_Some _ _ _ Hn); cbn [routes middlewares];
  rewrite ?(outer_of_Some _ _ _ Hr); eauto; intros *; by rewrite lookup_empty.
Qed.

End allocation.

Section registry_wf.
Implicit Types (w : World) (this that : loc) (method path : string) (h : Handler).

Lemma addRoute_wf this that method path h w :
  wf_app w this → wf_app w that →
  routes (app_of w that) = routes (app_of w this) →
  wf_app (App.addRoute this method path h w) that.
Proof.
  intros Hwf [[a Ha] _ _ _ [xs Hxs]] Hr.
  pose proof (addRoute_app this method path h _ _ _ Hwf Ha) as Ha'.
  rewrite (app_of_Some _ _ _ Ha) in Hr, Hxs.
  assert (array_of (App.addRoute this method path h w) (middlewares a) = xs) as Hxs'.
  { rewrite addRoute_array by done. by apply array_of_Some. }
  destruct Hwf as [_ [om Er] Hin Hinj _].
  rewrite (outer_of_Some _ _ _ Er) in Hin, Hinj.
  destruct (om !! path) as [l|] eqn:E.
  - assert (outer_of w (routes (app_of w this)) !! path = Some l) as E0
      by by rewrite (outer_of_Some _ _ _ Er).
    rewrite (addRoute_old _ _ _ _ _ _ E0) in *.
    destruct (Hin _ _ E) as [im Hl].
    assert (l ≠ routes (app_of w this)) by congruence.
    assert (l ≠ middlewares a) by congruence.
    split; rewrite ?(app_of_Some _ _ _ Ha'), ?Hr;
      rewrite ?outer_of_insert_ne, ?(outer_of_Some _ _ _ Er) by done.
    + eauto.
    + exists om. by rewrite lookup_insert_ne.
    + intros p l' Hp. destruct (decide (l = l')) as [<-|];
        [rewrite lookup_insert_eq; eauto|rewrite lookup_insert_ne; eauto].
    + eauto.
    + exists xs. by rewrite lookup_insert_ne.
  - rewrite (addRoute_new _ _ _ _ _ _ Er E) in *.
    pose proof (fresh_ne _ _ _ Er) as Hne.
    pose proof (fresh_ne _ _ _ Hxs) as Hne'.
    assert (routes (app_of w this) ≠ middlewares a) by congruence.
    assert (∀ p, om !! p ≠ Some (fresh (dom w))) as Hfr.
    { intros p Hp. destruct (Hin _ _ Hp) as [im Him].
      by rewrite fresh_None in Him. }
    split; rewrite ?(app_of_Some _ _ _ Ha'), ?Hr;
      rewrite ?(outer_of_insert_ne _ (fresh (dom w))) by congruence;
      unfold outer_of; rewrite ?lookup_insert_eq.
    + eauto.
    + rewrite lookup_insert_ne, lookup_insert_eq by congruence. eauto.
    + intros p l'. rewrite lookup_insert. case_decide as Hp.
      * intros [= <-]. rewrite lookup_insert_eq. eauto.
      * intros Hl'. destruct (Hin _ _ Hl') as [im Him].
        pose proof (fresh_ne _ _ _ Him).
        assert (routes (app_of w this) ≠ l') by congruence.
        rewrite !lookup_insert_ne by congruence. eauto.
    + intros p1 p2 l'. rewrite !lookup_insert.
      repeat case_decide; subst; try done.
      * intros [= <-] Hp2. by apply Hfr in Hp2.
      * intros Hp1 [= <-]. by apply Hfr in Hp1.
      * eauto.
    + exists xs. by rewrite !lookup_insert_ne by congruence.
Qed.

Lemma use_spec this mw w xs :
  w !! middlewares (app_of w this) = Some (CArray xs) →
  App.use this mw w = <[middlewares (app_of w this) := CArray (xs ++ [mw])]> w.
Proof. intros Hxs. unfold App.use. by rewrite (array_of_Some _ _ _ Hxs). Qed.

(** [use] rewrites one array and nothing else. *)
Lemma use_cell this mw w l y :
  wf_app w this → w !! l = Some y → (∀ xs, y ≠ CArray xs) →
  App.use this mw w !! l = Some y.
Proof.
  intros [_ _ _ _ [xs Hxs]] Hl Hy. rewrite (use_spec _ _ _ _ Hxs).
  rewrite lookup_insert_ne; [done|]. intros <-. naive_solver.
Qed.

Lemma use_outer this mw w l :
  wf_app w this → outer_of (App.use this mw w) l = outer_of w l.
Proof.
  intros [_ _ _ _ [xs Hxs]]. rewrite (use_spec _ _ _ _ Hxs). unfold outer_of.
  destruct (decide (middlewares (app_of w this) = l)) as [<-|];
    [by rewrite lookup_insert_eq, Hxs|by rewrite lookup_insert_ne].
Qed.

Lemma use_inner this mw w l :
  wf_app w this → inner_of (App.use this mw w) l = inner_of w l.
Proof.
  intros [_ _ _ _ [xs Hxs]]. rewrite (use_spec _ _ _ _ Hxs). unfold inner_of.
  destruct (decide (middlewares (app_of w this) = l)) as [<-|];
    [by rewrite lookup_insert_eq, Hxs|by rewrite lookup_insert_ne].
Qed.

Lemma use_app this mw w l :
  wf_app w this → app_of (App.use this mw w) l = app_of w l.
Proof.
  intros [_ _ _ _ [xs Hxs]]. rewrite (use_spec _ _ _ _ Hxs). unfold app_of.
  destruct (decide (middlewares (app_of w this) = l)) as [<-|];
    [by rewrite lookup_insert_eq, Hxs|by rewrite lookup_insert_ne].
Qed.

Lemma lookup_use this that mw w path method :
  wf_app w this →
  lookup_handler (App.use this mw w) that path method
  = lookup_handler w that path method.
Proof.
  intros Hwf. unfold lookup_handler.
  rewrite use_app, use_outer by done.
  destruct (_ !! path); [|done]. by rewrite use_inner.
Qed.

Lemma pipeline_use this that mw w :
  wf_app w this →
  middlewares (app_of w that) = middlewares (app_of w this) →
  pipeline (App.use this mw w) that = pipeline w that ++ [mw].
Proof.
  intros Hwf Hm. unfold pipeline. rewrite use_app, Hm by done.
  destruct Hwf as [_ _ _ _ [xs Hxs]]. rewrite (use_spec _ _ _ _ Hxs).
  unfold array_of. by rewrite lookup_insert_eq, Hxs.
Qed.

Lemma use_wf this that mw w :
  wf_app w this → wf_app w that → wf_app (App.use this mw w) that.
Proof.
  intros Hwf [[a Ha] [om Er] Hin Hinj [xs Hxs]].
  split; rewrite ?use_app, ?use_outer by done.
  - exists a. apply use_cell; naive_solver.
  - exists om. apply use_cell; naive_solver.
  - intros p l Hp. destruct (Hin _ _ Hp) as [im Him].
    exists im. apply use_cell; naive_solver.
  - done.
  - destruct Hwf as [_ _ _ _ [ys Hys]]. rewrite (use_spec _ _ _ _ Hys).
    destruct (decide (middlewares (app_of w this) = middlewares (app_of w that)))
      as [<-|]; [rewrite lookup_insert_eq|rewrite lookup_insert_ne by done]; eauto.
Qed.

End registry_wf.

(** ** State rebinding *)

Lemma withState_spec (this : loc) (st : val) (w : World) :
  wf_app w this →
  w !! (App.withState this st w).1 = None
  ∧ extends w (App.withState this st w).2
  ∧ (App.withState this st w).2 !! (App.withState this st w).1
    = Some (CApp {| routes := routes (app_of w this);
                    middlewares := middlewares (app_of w this);
                    state := st |}).
Proof.
  intros [[a Ha] _ _ _ _]. unfold App.withState.
  destruct (new_cell w) as (r & arr & s & Hn & _ & _ & _ & _ & _ & _ & Hfresh).
  pose proof (new_extends w) as Hext.
  destruct (App.new w) as [n w0]; simpl in *.
  assert (n ≠ this) as Hne by congruence.
  unfold App.set_state, App.set_routes, App.set_middlewares.
  repeat first [rewrite app_of_insert_eq
               |rewrite (app_of_insert_ne _ n this) by done]; simpl.
  rewrite (app_of_Some _ _ _ (Hext _ _ Ha)), (app_of_Some _ _ _ Ha).
  rewrite !insert_insert_eq. split_and!; [done| |apply lookup_insert_eq].
  intros l y Hl. rewrite lookup_insert_ne by congruence. by apply Hext.
Qed.

(** ** One dispatch *)

Section dispatch.
Context `{E : Env MwK HK}.
Implicit Types (w : World) (t : task MwK HK) (log : list event) (f : frame).

Lemma app_of_alloc w x l : (∀ a, x ≠ CApp a) → app_of (alloc w x).2 l = app_of w l.
Proof.
  intros Hx. unfold alloc, app_of; simpl.
  destruct (decide (fresh (dom w) = l)) as [<-|]; [|by rewrite lookup_insert_ne].
  rewrite lookup_insert_eq, fresh_None. destruct x; naive_solver.
Qed.

Lemma start_frame this req w :
  (start this req w).2
  = {| f_this := this; f_req := req; f_c := context_loc w;
       f_mws := middlewares (app_of w this) |}.
Proof.
  unfold start.
  pose proof (app_of_alloc w (CObject ∅) this ltac:(done)) as H1.
  destruct (alloc w (CObject ∅)) as [d w1] eqn:E1.
  pose proof (app_of_alloc w1
    (CContext {| Context.req := req; Context.data := VRef d;
                 Context.state := state (app_of w1 this) |}) this ltac:(done)) as H2.
  destruct (alloc w1 _) as [c w2] eqn:E2. simpl in *.
  unfold alloc in E1, E2. simplify_eq. by rewrite H2, H1.
Qed.

Lemma start_world this req w :
  (start this req w).1
  = <[context_loc w := CContext {| Context.req := req;
                                    Context.data := VRef (scratch_loc w);
                                    Context.state := state (app_of w this) |}]>
      (<[scratch_loc w := CObject ∅]> w).
Proof.
  unfold start.
  pose proof (app_of_alloc w (CObject ∅) this ltac:(done)) as H1.
  destruct (alloc w (CObject ∅)) as [d w1] eqn:E1.
  destruct (alloc w1 _) as [c w2] eqn:E2. simpl in *.
  unfold alloc in E1, E2. simplify_eq. by rewrite H1.
Qed.

Lemma scratch_context_ne w : scratch_loc w ≠ context_loc w.
Proof.
  unfold context_loc. eapply fresh_ne. apply lookup_insert_eq.
Qed.

Lemma context_loc_fresh w : w !! context_loc w = None.
Proof.
  destruct (w !! context_loc w) eqn:Hc; [|done].
  eapply (extends_alloc w (CObject ∅)) in Hc.
  unfold alloc in Hc; simpl in Hc. unfold context_loc, scratch_loc in Hc.
  by rewrite fresh_None in Hc.
Qed.

Lemma start_extends this req w : extends w (start this req w).1.
Proof.
  rewrite start_world. intros l y Hl.
  rewrite !lookup_insert_ne; [done| |].
  - intros <-. unfold scratch_loc in Hl. by rewrite fresh_None in Hl.
  - intros <-. by rewrite context_loc_fresh in Hl.
Qed.

Lemma start_array this req w l : array_of (start this req w).1 l = array_of w l.
Proof.
  rewrite start_world. unfold array_of.
  destruct (decide (context_loc w = l)) as [<-|].
  { by rewrite lookup_insert_eq, context_loc_fresh. }
  rewrite lookup_insert_ne by done.
  destruct (decide (scratch_loc w = l)) as [<-|].
  { unfold scratch_loc. by rewrite lookup_insert_eq, fresh_None. }
  by rewrite lookup_insert_ne.
Qed.

(** *** Turns *)

Lemma turns_add n m (x : World * task MwK HK * list event) :
  turns (n + m) x = turns m (turns n x).
Proof.
  revert x. induction n as [|n IH]; intros [[w t] log]; [done|].
  simpl. destruct (resume t w) as [[w' t'] evs]. apply IH.
Qed.

Lemma run_add n m this req w :
  run (n + m) this req w = turns m (run n this req w).
Proof. unfold run. destruct (start this req w). apply turns_add. Qed.

Lemma turns_Resolved m w r log :
  turns m (w, Resolved r, log) = (w, Resolved r, log).
Proof. induction m as [|m IH]; simpl; [done|]. by rewrite app_nil_r. Qed.

Lemma turns_Rejected m w e log :
  turns m (w, Rejected e, log) = (w, Rejected e, log).
Proof. induction m as [|m IH]; simpl; [done|]. by rewrite app_nil_r. Qed.

Lemma settle_Done m w (r : Response) : settle m (w, Done r) = (w, Done r).
Proof. by destruct m. Qed.

Lemma settle_Raise m w (e : val) :
  settle m (w, Raise e) = (w, @Raise HK Response e).
Proof. by destruct m. Qed.

Lemma return_await_Await m w (k : HK) :
  return_await (S m) (w, Await k) = return_await m (h_resume k w).
Proof.
  destruct m as [|m]; [done|].
  unfold return_await. by cbn [settle].
Qed.

(** The promise of [fetch] follows the promise of the handler, one turn
    behind when the handler returns. *)
Lemma turns_handler m w (s : status HK Response) log :
  turns m (w, after_handler s, log)
  = ((settle m (w, s)).1, return_await m (w, s), log).
Proof.
  revert w s. induction m as [|m IH]; intros w s; [done|].
  destruct s as [r|e|k].
  - unfold return_await. rewrite !settle_Done. cbn [turns resume after_handler fst snd].
    rewrite app_nil_r. apply turns_Resolved.
  - unfold return_await. rewrite !settle_Raise. cbn [turns resume after_handler fst snd].
    rewrite app_nil_r. apply turns_Rejected.
  - rewrite return_await_Await. cbn [turns resume after_handler settle].
    destruct (h_resume k w) as [w' s']. rewrite app_nil_r. apply IH.
Qed.

(** *** The lookup *)

Lemma route_lookup f w url :
  URL_parse (req_url (f_req f)) = Some url →
  route f w
  = match lookup_handler w (f_this f) (pathname url) (req_method (f_req f)) with
    | Some h =>
        ((h_call h (f_c f) w).1, after_handler (h_call h (f_c f) w).2,
         [HandlerCalled h (f_c f)])
    | None => (w, Resolved notFound, [])
    end.
Proof.
  intros Hurl. unfold route, lookup_handler. rewrite Hurl.
  destruct (outer_of _ _ !! _) as [l|]; [|done].
  destruct (inner_of w l !! _) as [h|] eqn:Hh.
  - rewrite bool_decide_true by eauto. by destruct (h_call _ _ _).
  - rewrite bool_decide_false; [done|]. by intros [??].
Qed.

Lemma resume_exit f i w :
  array_of w (f_mws f) !! i = None → resume (Resume f i) w = route f w.
Proof. intros Hi. simpl. unfold for_of. by rewrite Hi. Qed.

End dispatch.

(** ** The order of the calls *)

Section order.
Context `{E : Env MwK HK} {Henc : Encapsulated E}.
Implicit Types (w : World) (t : task MwK HK) (log : list event) (f : frame)
  (P : list Middleware).

Lemma keeps_refl w : keeps w w.
Proof. split; [done|]. by intros l. Qed.

Lemma calls_app c P Q : calls c (P ++ Q) = calls c P ++ calls c Q.
Proof. unfold calls. apply bind_app. Qed.

Lemma take_prefix (xs ys : list Middleware) i :
  xs `prefix_of` ys → i ≤ length xs → take i ys = take i xs.
Proof. intros [k ->] Hi. by rewrite take_app_le. Qed.

Lemma past_loop_keeps f0 P0 w w' log :
  keeps w w' → past_loop f0 P0 w log → past_loop f0 P0 w' log.
Proof.
  intros [_ HA] (P & hs & H0 & H1 & -> & Hhs). exists P, hs.
  split_and!; [done| |done|done]. etrans; [apply H1|apply HA].
Qed.

(** The state after a middleware ran a stretch, whatever its outcome. *)
Lemma order_after_mw f0 P0 i mw w w' (s : status MwK unit) t evs :
  keeps w w' →
  P0 `prefix_of` array_of w (f_mws f0) →
  array_of w (f_mws f0) !! i = Some mw →
  after_mw f0 i mw s = (t, evs) →
  order_inv f0 P0
    (w', t, calls (f_c f0) (take i (array_of w (f_mws f0)))
            ++ MwCalled mw (f_c f0) :: evs).
Proof.
  intros [_ HA] HP0 Hi Hs.
  pose proof (lookup_lt_Some _ _ _ Hi) as Hlt.
  pose proof (HA (f_mws f0)) as Hpre.
  pose proof (prefix_lookup_Some _ _ _ _ Hi Hpre) as Hi'.
  assert (take i (array_of w' (f_mws f0)) = take i (array_of w (f_mws f0))) as Ht
    by (apply take_prefix; [done|lia]).
  split; [by etrans|].
  destruct s as [[]|e|k]; simpl in Hs; simplify_eq.
  - split_and!; [done|by apply lookup_lt_Some in Hi'|].
    rewrite (take_S_r _ _ _ Hi'), Ht, calls_app. done.
  - left. exists i, mw. by rewrite Ht.
  - by rewrite Ht.
Qed.

Lemma order_inv_resume f0 P0 w t log w' t' evs :
  order_inv f0 P0 (w, t, log) →
  resume t w = (w', t', evs) →
  order_inv f0 P0 (w', t', log ++ evs).
Proof.
  intros [HP0 Ht] Hres. destruct t as [f i|f i mw k|k|r|r|e]; simpl in Hres.
  - destruct Ht as (-> & Hi & ->). unfold for_of in Hres.
    destruct (array_of w (f_mws f0) !! i) as [mw|] eqn:Hmw.
    + pose proof (mw_call_keeps mw (f_c f0) w) as Hk.
      destruct (mw_call mw (f_c f0) w) as [w1 s]; simpl in Hk.
      destruct (after_mw f0 i mw s) as [t1 evs1] eqn:Hs. simplify_eq.
      by eapply order_after_mw.
    + apply lookup_ge_None in Hmw.
      rewrite take_ge by done.
      assert (past_loop f0 P0 w (calls (f_c f0) (array_of w (f_mws f0)))) as Hpast.
      { exists (array_of w (f_mws f0)), []. rewrite app_nil_r. eauto. }
      unfold route in Hres.
      destruct (URL_parse _) as [url|];
        [|simplify_eq; split; [done|]; right; by rewrite app_nil_r].
      destruct (outer_of w _ !! _) as [l|];
        [|simplify_eq; split; [done|]; by rewrite app_nil_r].
      destruct (bool_decide _);
        [|simplify_eq; split; [done|]; by rewrite app_nil_r].
      destruct (inner_of w l !! _) as [h|];
        [|simplify_eq; split; [done|]; by rewrite app_nil_r].
      pose proof (h_call_keeps h (f_c f0) w) as Hk.
      destruct (h_call h (f_c f0) w) as [w1 s]; simpl in Hk. simplify_eq.
      assert (past_loop f0 P0 w'
                (calls (f_c f0) (array_of w (f_mws f0)) ++ [HandlerCalled h (f_c f0)])).
      { exists (array_of w (f_mws f0)), [HandlerCalled h (f_c f0)].
        split_and!; [done|apply Hk|done|eauto]. }
      split; [etrans; [done|apply Hk]|].
      destruct s; simpl; eauto.
  - destruct Ht as (-> & Hi & ->).
    pose proof (mw_resume_keeps k w) as Hk.
    destruct (mw_resume k w) as [w1 s]; simpl in Hk.
    destruct (after_mw f0 i mw s) as [t1 evs1] eqn:Hs. simplify_eq.
    rewrite <-app_assoc. by eapply order_after_mw.
  - pose proof (h_resume_keeps k w) as Hk.
    destruct (h_resume k w) as [w1 s]; simpl in Hk. simplify_eq.
    rewrite app_nil_r. apply (past_loop_keeps _ _ _ _ _ Hk) in Ht.
    split; [etrans; [done|apply Hk]|].
    destruct s; simpl; eauto.
  - simplify_eq. by rewrite app_nil_r.
  - simplify_eq. by rewrite app_nil_r.
  - simplify_eq. by rewrite app_nil_r.
Qed.

Lemma order_inv_turns f0 P0 n (x : World * task MwK HK * list event) :
  order_inv f0 P0 x → order_inv f0 P0 (turns n x).
Proof.
  revert x. induction n as [|n IH]; intros [[w t] log] Hinv; [done|].
  simpl. destruct (resume t w) as [[w' t'] evs] eqn:Hres.
  eapply IH, order_inv_resume; eauto.
Qed.

Lemma order_inv_run n this req w :
  order_inv (start this req w).2 (pipeline w this) (run n this req w).
Proof.
  unfold run. pose proof (start_array this req w) as Harr.
  pose proof (start_frame this req w) as Hf.
  destruct (start this req w) as [w0 f0]; simpl in *.
  apply order_inv_turns. split.
  - rewrite Harr, Hf. done.
  - split_and!; [done|simpl; lia|done].
Qed.

End order.

(** ** Requests in flight together *)

Section pool.
Context `{E : Env MwK HK} {Henc : Encapsulated E}.
Implicit Types (w : World) (t : task MwK HK) (ts : list (loc * task MwK HK)).

Lemma for_of_dom f i w : dom w ⊆ dom (for_of f i w).1.1.
Proof.
  unfold for_of. destruct (array_of w (f_mws f) !! i) as [mw|].
  - pose proof (mw_call_keeps mw (f_c f) w) as [Hk _].
    destruct (mw_call mw (f_c f) w) as [w1 s].
    by destruct (after_mw f i mw s).
  - unfold route. destruct (URL_parse _); [|done].
    destruct (outer_of w _ !! _) as [l|]; [|done].
    destruct (bool_decide _); [|done].
    destruct (inner_of w l !! _) as [h|]; [|done].
    pose proof (h_call_keeps h (f_c f) w) as [Hk _].
    by destruct (h_call h (f_c f) w).
Qed.

Lemma resume_dom t w : dom w ⊆ dom (resume t w).1.1.
Proof.
  destruct t as [f i|f i mw k|k|r|r|e]; simpl; [apply for_of_dom| | |done|done|done].
  - pose proof (mw_resume_keeps k w) as [Hk _].
    destruct (mw_resume k w) as [w1 s]. by destruct (after_mw f i mw s).
  - pose proof (h_resume_keeps k w) as [Hk _]. by destruct (h_resume k w).
Qed.

Lemma fetch_dom this req w : dom w ⊆ dom (fetch this req w).1.1.
Proof.
  unfold fetch. pose proof (start_extends this req w) as Hext.
  destruct (start this req w) as [w0 f]; simpl in *.
  etrans; [|apply for_of_dom].
  intros l [y Hl]%elem_of_dom. apply elem_of_dom. eauto.
Qed.

Lemma pool_inv_step x y : pool_inv x → pool_step x y → pool_inv y.
Proof.
  intros [Hnd Hdom] Hstep. destruct Hstep as [w ts this req w' t evs Hf|w ts i d t w' t' evs Hi Hr|w ts w' [Hk _]].
  - pose proof (fetch_dom this req w) as Hsub. rewrite Hf in Hsub. simpl in *.
    pose proof (start_world this req w) as Hw0.
    assert (scratch_loc w ∈ dom w') as Hd.
    { unfold fetch in Hf. destruct (start this req w) as [w0 f]; simpl in *.
      pose proof (for_of_dom f 0 w0) as Hsub0. rewrite Hf in Hsub0.
      apply Hsub0. rewrite Hw0. apply elem_of_dom.
      rewrite lookup_insert_ne by (apply not_eq_sym, scratch_context_ne).
      unfold scratch_loc. rewrite lookup_insert_eq. eauto. }
    split; simpl; rewrite fmap_app; simpl.
    + apply NoDup_app. split_and!; [done| |apply NoDup_singleton].
      intros d Hd1 ->%list_elem_of_singleton.
      apply Hdom in Hd1. by apply (is_fresh (dom w)) in Hd1.
    + intros d [Hd1| ->%list_elem_of_singleton]%elem_of_app; [|done].
      apply Hsub. eauto.
  - pose proof (resume_dom t w) as Hsub. rewrite Hr in Hsub. simpl in *.
    unfold pool_inv; simpl.
    assert ((<[i := (d, t')]> ts).*1 = ts.*1) as ->.
    { rewrite list_fmap_insert. simpl. apply list_insert_id.
      by rewrite list_lookup_fmap, Hi. }
    split; [done|]. intros d' Hd'. apply Hsub. eauto.
  - split; [done|]. intros d Hd. apply Hk. eauto.
Qed.

Lemma pool_inv_rtc x y : pool_inv x → rtc pool_step x y → pool_inv y.
Proof. intros Hx Hxy. induction Hxy; eauto using pool_inv_step. Qed.

End pool.

(** ** Registration seen through the registering instance *)

Lemma lookup_addRoute_this (this : loc) (method path : string) (h : Handler)
    (w : World) (path' method' : string) :
  wf_app w this →
  lookup_handler (App.addRoute this method path h w) this path' method'
  = if decide (path' = path ∧ method' = method) then Some h
    else lookup_handler w this path' method'.
Proof.
  intros Hwf. destruct (wf_this _ _ Hwf) as [a Ha].
  apply (lookup_addRoute this this method path h w a); [done|done|].
  by rewrite (app_of_Some _ _ _ Ha).
Qed.

Lemma addRoute_wf_this (this : loc) (method path : string) (h : Handler) (w : World) :
  wf_app w this → wf_app (App.addRoute this method path h w) this.
Proof. intros Hwf. by apply addRoute_wf. Qed.

Lemma lookup_all (this : loc) (path : string) (h : Handler) (w : World)
    (path' method' : string) :
  wf_app w this →
  lookup_handler (App.all this path h w) this path' method'
  = if decide (path' = path ∧ method' ∈ all_methods) then Some h
    else lookup_handler w this path' method'.
Proof.
  intros Hwf. unfold App.all.
  rewrite !lookup_addRoute_this by eauto using addRoute_wf_this.
  unfold all_methods.
  repeat case_decide; try done; exfalso;
    repeat match goal with
    | H : _ ∧ _ |- _ => destruct H
    | H : ¬ (_ ∧ _) |- _ => apply H; clear H
    | H : _ ∈ _ :: _ |- _ => apply elem_of_cons in H as [?|?]
    | H : _ ∈ [] |- _ => by apply elem_of_nil in H
    end; subst; try done; split; try done; set_solver.
Qed.

Lemma all_wf (this : loc) (path : string) (h : Handler) (w : World) :
  wf_app w this → wf_app (App.all this path h w) this.
Proof. intros Hwf. unfold App.all. eauto using addRoute_wf_this. Qed.

(** The store of the example host is one the class built. *)
Lemma Demo_new_wf : wf_app (App.new ∅).2 Demo.app.
Proof. apply new_wf. Qed.

Lemma Demo_world_wf : wf_app Demo.world Demo.app.
Proof.
  unfold Demo.world, App.get. apply addRoute_wf_this, use_wf; apply Demo_new_wf.
Qed.

(** ** What the log says about the pipeline *)

Lemma handler_not_in_calls (c : loc) (P : list Middleware) (h : Handler) (c' : loc) :
  HandlerCalled h c' ∉ calls c P.
Proof.
  unfold calls. rewrite list_elem_of_bind. intros (mw & Hin & _).
  apply elem_of_cons in Hin as [?|Hin]; [done|].
  by apply list_elem_of_singleton in Hin.
Qed.

Lemma mw_called_calls_list (c : loc) (P : list Middleware) : mw_called (calls c P) = P.
Proof. induction P as [|mw P IH]; [done|]. simpl. by f_equal. Qed.

Lemma mw_called_past `{E : Env MwK HK} (f0 : frame) (P0 : list Middleware)
    (w : World) (log : list event) :
  past_loop f0 P0 w log → mw_called log `prefix_of` array_of w (f_mws f0).
Proof.
  intros (P & hs & _ & HP & -> & Hhs). unfold mw_called.
  rewrite omap_app. fold (mw_called (calls (f_c f0) P)).
  rewrite mw_called_calls_list.
  destruct Hhs as [->|[h ->]]; simpl; by rewrite app_nil_r.
Qed.

Lemma mw_called_in `{E : Env MwK HK} (f0 : frame) (w : World) (log : list event) :
  in_loop f0 w log → mw_called log `prefix_of` array_of w (f_mws f0).
Proof.
  intros (i & mw & Hmw & ->). unfold mw_called.
  rewrite omap_app. fold (mw_called (calls (f_c f0) (take i (array_of w (f_mws f0))))).
  rewrite mw_called_calls_list. simpl.
  rewrite <-(take_S_r _ _ _ Hmw). apply prefix_take.
Qed.

(** ** The example host keeps to the methods of the class *)

Lemma keeps_set_prop (target : val) (k : string) (v : val) (w : World) :
  keeps w (set_prop target k v w).
Proof.
  split; [by rewrite set_prop_dom|]. intros l. by rewrite set_prop_array.
Qed.

Lemma Demo_encapsulated : Encapsulated Demo.env.
Proof.
  split; simpl.
  - intros mw c w. unfold Demo.mw_call.
    repeat case_match; simpl; auto using keeps_set_prop, keeps_refl.
  - intros k w. apply keeps_set_prop.
  - intros h c w. unfold Demo.h_call.
    repeat case_match; simpl; auto using keeps_refl.
  - intros k w. apply keeps_refl.
Qed.

(** ** Two instances on the same containers *)

Section shared.
Implicit Types (w : World) (this n : loc).

Lemma lookup_handler_extends w (w' : World) this path method :
  wf_app w this → extends w w' →
  lookup_handler w' this path method = lookup_handler w this path method.
Proof.
  intros [[a Ha] [om Er] Hin _ _] Hext. unfold lookup_handler.
  rewrite (app_of_Some _ _ _ Ha), (app_of_Some _ _ _ (Hext _ _ Ha)).
  rewrite (app_of_Some _ _ _ Ha) in Er, Hin.
  rewrite (outer_of_Some _ _ _ Er), (outer_of_Some _ _ _ (Hext _ _ Er)).
  rewrite (outer_of_Some _ _ _ Er) in Hin.
  destruct (om !! path) as [l|] eqn:Hl; [|done].
  destruct (Hin _ _ Hl) as [im Him].
  by rewrite (inner_of_Some _ _ _ Him), (inner_of_Some _ _ _ (Hext _ _ Him)).
Qed.

Lemma pipeline_extends w (w' : World) this :
  wf_app w this → extends w w' → pipeline w' this = pipeline w this.
Proof.
  intros [[a Ha] _ _ _ [xs Hxs]] Hext. unfold pipeline.
  rewrite (app_of_Some _ _ _ Ha), (app_of_Some _ _ _ (Hext _ _ Ha)).
  rewrite (app_of_Some _ _ _ Ha) in Hxs.
  by rewrite (array_of_Some _ _ _ Hxs), (array_of_Some _ _ _ (Hext _ _ Hxs)).
Qed.


Lemma addRoute_app_of this method path h w x :
  wf_app w this → wf_app w x →
  app_of (App.addRoute this method path h w) x = app_of w x.
Proof.
  intros Hwf [[a Ha] _ _ _ _].
  by rewrite (app_of_Some _ _ _ (addRoute_app _ method path h _ _ _ Hwf Ha)),
    (app_of_Some _ _ _ Ha).
Qed.





(** What one registration through either instance shows through both. *)
Lemma shared_lookup_addRoute w this n method path h :
  shared w this n →
  lookup_handler (App.addRoute this method path h w) this path method = Some h
  ∧ lookup_handler (App.addRoute this method path h w) n path method = Some h.
Proof.
  intros (Hthis & Hn & Hr & Hm). destruct (wf_this _ _ Hn) as [a Ha].
  rewrite lookup_addRoute_this by done.
  rewrite (lookup_addRoute this n method path h w a) by
    (by rewrite <-?Hr, ?(app_of_Some _ _ _ Ha)).
  by rewrite !decide_True.
Qed.

Lemma shared_pipeline_use w this n mw :
  shared w this n →
  pipeline (App.use this mw w) this = pipeline w this ++ [mw]
  ∧ pipeline (App.use this mw w) n = pipeline w n ++ [mw].
Proof.
  intros (Hthis & Hn & Hr & Hm). split; by apply pipeline_use.
Qed.


End shared.

(** ** From the start of a dispatch to its lookup *)

Section exit.
Context `{E : Env MwK HK}.
Implicit Types (w : World) (t : task MwK HK) (log : list event) (f : frame).

Lemma route_task f w :
  match (route f w).1.2 with Resume _ _ | AwaitMw _ _ _ _ => False | _ => True end.
Proof.
  unfold route. destruct (URL_parse _); [|done].
  destruct (outer_of w _ !! _) as [l|]; [|done].
  destruct (bool_decide _); [|done].
  destruct (inner_of w l !! _) as [h|]; [|done].
  destruct (h_call h (f_c f) w) as [w1 s]. by destruct s.
Qed.

Lemma loop_inv_after_mw f0 i mw (s : status MwK unit) w log evs :
  (∀ h c, HandlerCalled h c ∉ log) → (∀ h c, HandlerCalled h c ∉ evs) →
  loop_inv f0 (w, (after_mw (HK := HK) f0 i mw s).1,
               (log ++ evs) ++ (after_mw (HK := HK) f0 i mw s).2).
Proof.
  intros Hlog Hevs. destruct s as [[]|e|k]; unfold loop_inv; simpl; [|done|].
  - split; [done|]. intros h c. rewrite !elem_of_app, list_elem_of_singleton.
    naive_solver.
  - split; [done|]. intros h c. rewrite !elem_of_app, elem_of_nil. naive_solver.
Qed.

Lemma loop_inv_resume f0 w t log w' t' evs :
  loop_inv f0 (w, t, log) →
  resume t w = (w', t', evs) →
  loop_inv f0 (w', t', log ++ evs).
Proof.
  intros Hinv Hres. destruct t as [f i|f i mw k|k|r|r|e]; simpl in Hres.
  - destruct Hinv as [-> Hlog]. unfold for_of in Hres.
    destruct (array_of w (f_mws f0) !! i) as [mw|].
    + destruct (mw_call mw (f_c f0) w) as [w1 s].
      pose proof (loop_inv_after_mw f0 i mw s w1 log [MwCalled mw (f_c f0)] Hlog) as H.
      destruct (after_mw (HK := HK) f0 i mw s) as [t1 evs1]. simplify_eq. simpl in H.
      rewrite <-app_assoc in H. apply H.
      intros h c. rewrite list_elem_of_singleton. naive_solver.
    + pose proof (route_task f0 w) as Ht. rewrite Hres in Ht. simpl in Ht.
      unfold loop_inv; simpl. by destruct t'.
  - destruct Hinv as [-> Hlog].
    destruct (mw_resume k w) as [w1 s].
    pose proof (loop_inv_after_mw f0 i mw s w1 log [] Hlog) as H.
    destruct (after_mw (HK := HK) f0 i mw s) as [t1 evs1]. simplify_eq. simpl in H.
    rewrite app_nil_r in H. apply H. intros h c. apply not_elem_of_nil.
  - destruct (h_resume k w) as [w1 s]. simplify_eq.
    unfold loop_inv; simpl. by destruct s.
  - by simplify_eq.
  - by simplify_eq.
  - by simplify_eq.
Qed.

Lemma loop_inv_turns f0 n (x : World * task MwK HK * list event) :
  loop_inv f0 x → loop_inv f0 (turns n x).
Proof.
  revert x. induction n as [|n IH]; intros [[w t] log] Hinv; [done|].
  simpl. destruct (resume t w) as [[w' t'] evs] eqn:Hres.
  eapply IH, loop_inv_resume; eauto.
Qed.

Lemma loop_inv_run n this req w :
  loop_inv (start this req w).2 (run n this req w).
Proof.
  unfold run. destruct (start this req w) as [w0 f0]; simpl.
  apply loop_inv_turns. split; [done|]. intros h c. apply not_elem_of_nil.
Qed.

(** A dispatch that is in its loop has the frame [start] gave it. *)
Lemma run_frame n this req w w1 f i log :
  run n this req w = (w1, Resume f i, log) →
  f = {| f_this := this; f_req := req; f_c := context_loc w;
         f_mws := middlewares (app_of w this) |}
  ∧ ∀ h c, HandlerCalled h c ∉ log.
Proof.
  intros Hrun. pose proof (loop_inv_run n this req w) as Hinv.
  rewrite Hrun, start_frame in Hinv. apply Hinv.
Qed.

Lemma run_frame_await n this req w w1 f i mw k log :
  run n this req w = (w1, AwaitMw f i mw k, log) →
  f = {| f_this := this; f_req := req; f_c := context_loc w;
         f_mws := middlewares (app_of w this) |}
  ∧ ∀ h c, HandlerCalled h c ∉ log.
Proof.
  intros Hrun. pose proof (loop_inv_run n this req w) as Hinv.
  rewrite Hrun, start_frame in Hinv. apply Hinv.
Qed.

(** Once the loop has gone through the pipeline, the rest of the dispatch
    is the lookup and what the handler found does. *)
Lemma dispatch_exit n this req w w1 f i log url m :
  run n this req w = (w1, Resume f i, log) →
  array_of w1 (f_mws f) !! i = None →
  URL_parse (req_url req) = Some url →
  run (n + S m) this req w
  = match lookup_handler w1 this (pathname url) (req_method req) with
    | Some h =>
        ((settle m (h_call h (context_loc w) w1)).1,
         return_await m (h_call h (context_loc w) w1),
         log ++ [HandlerCalled h (context_loc w)])
    | None => (w1, Resolved notFound, log)
    end.
Proof.
  intros Hrun Hexit Hurl. destruct (run_frame _ _ _ _ _ _ _ _ Hrun) as [Hf _].
  rewrite run_add, Hrun. cbn [turns]. rewrite (resume_exit _ _ _ Hexit).
  rewrite (route_lookup f w1 url) by (by rewrite Hf).
  rewrite Hf; simpl.
  destruct (lookup_handler _ _ _ _) as [h|].
  - destruct (h_call h (context_loc w) w1) as [w2 s]. apply turns_handler.
  - rewrite app_nil_r. apply turns_Resolved.
Qed.

End exit.

(** ** A pipeline of synchronous middleware comes to its end

    When every middleware returns at its call and registers nothing, the
    loop is through the pipeline after as many turns as it has entries. *)

Section progress.
Context `{E : Env MwK HK}.

Lemma app_of_start (this : loc) (req : Request) (w : World) (l : loc) :
  app_of (start this req w).1 l = app_of w l.
Proof.
  rewrite start_world. unfold app_of.
  destruct (decide (context_loc w = l)) as [<-|].
  { by rewrite lookup_insert_eq, context_loc_fresh. }
  rewrite lookup_insert_ne by done.
  destruct (decide (scratch_loc w = l)) as [<-|].
  { unfold scratch_loc. by rewrite lookup_insert_eq, fresh_None. }
  by rewrite lookup_insert_ne.
Qed.

Lemma outer_of_start (this : loc) (req : Request) (w : World) (l : loc) :
  outer_of (start this req w).1 l = outer_of w l.
Proof.
  rewrite start_world. unfold outer_of.
  destruct (decide (context_loc w = l)) as [<-|].
  { by rewrite lookup_insert_eq, context_loc_fresh. }
  rewrite lookup_insert_ne by done.
  destruct (decide (scratch_loc w = l)) as [<-|].
  { unfold scratch_loc. by rewrite lookup_insert_eq, fresh_None. }
  by rewrite lookup_insert_ne.
Qed.

Lemma inner_of_start (this : loc) (req : Request) (w : World) (l : loc) :
  inner_of (start this req w).1 l = inner_of w l.
Proof.
  rewrite start_world. unfold inner_of.
  destruct (decide (context_loc w = l)) as [<-|].
  { by rewrite lookup_insert_eq, context_loc_fresh. }
  rewrite lookup_insert_ne by done.
  destruct (decide (scratch_loc w = l)) as [<-|].
  { unfold scratch_loc. by rewrite lookup_insert_eq, fresh_None. }
  by rewrite lookup_insert_ne.
Qed.

(** Making the context changes no registry. *)
Lemma lookup_handler_start (this : loc) (req : Request) (w : World)
    (a : loc) (path method : string) :
  lookup_handler (start this req w).1 a path method = lookup_handler w a path method.
Proof.
  unfold lookup_handler. rewrite app_of_start, outer_of_start.
  destruct (outer_of w _ !! path); [|done]. by rewrite inner_of_start.
Qed.

Lemma run_synchronous (this : loc) (req : Request) (w : World) (i : nat) :
  synchronous →
  i ≤ length (pipeline w this) →
  ∃ wi, run i this req w
        = (wi, Resume (start this req w).2 i,
           calls (context_loc w) (take i (pipeline w this)))
      ∧ (∀ l, array_of wi l = array_of w l)
      ∧ (leaves_registry → ∀ a path method,
           lookup_handler wi a path method = lookup_handler w a path method).
Proof.
  intros Hsync. induction i as [|i IH]; intros Hi.
  - exists (start this req w).1. split_and!; [|apply start_array|].
    + unfold run. by destruct (start this req w).
    + intros _ a path method. apply lookup_handler_start.
  - destruct IH as (wi & Hrun & Harr & Hreg); [lia|].
    destruct (lookup_lt_is_Some_2 (pipeline w this) i) as [mw Hmw]; [lia|].
    destruct (Hsync mw (context_loc w) wi) as (w' & Hcall & Harr').
    exists w'. split_and!; [|intros l; by rewrite Harr', Harr|].
    2:{ intros Hleaves a path method. rewrite <-(Hreg Hleaves a path method).
        pose proof (Hleaves mw (context_loc w) wi a path method) as H.
        by rewrite Hcall in H. }
    replace (S i) with (i + 1) by lia.
    rewrite run_add, Hrun. cbn [turns resume]. unfold for_of.
    rewrite start_frame; simpl. rewrite Harr. fold (pipeline w this).
    rewrite Hmw, Hcall. simpl.
    rewrite Nat.add_1_r, (take_S_r _ _ _ Hmw), calls_app. done.
Qed.

Lemma run_synchronous_exit (this : loc) (req : Request) (w : World) :
  synchronous →
  ∃ w1, run (length (pipeline w this)) this req w
        = (w1, Resume (start this req w).2 (length (pipeline w this)),
           calls (context_loc w) (pipeline w this))
      ∧ array_of w1 (f_mws (start this req w).2) !! length (pipeline w this) = None.
Proof.
  intros Hsync.
  destruct (run_synchronous this req w (length (pipeline w this)) Hsync)
    as (w1 & Hrun & Harr & _); [done|].
  exists w1. rewrite take_ge in Hrun by done. split; [done|].
  rewrite Harr, start_frame. simpl. by apply lookup_ge_None.
Qed.

(** With such a host a dispatch settles: after the pipeline has run, the
    request is served by the handler registered for its path and method
    when [fetch] was called, or answered with the 404 response. *)
Lemma dispatch_synchronous (this : loc) (req : Request) (w : World) (url : URL) :
  synchronous → leaves_registry →
  URL_parse (req_url req) = Some url →
  ∃ w1, ∀ m,
    run (length (pipeline w this) + S m) this req w
    = match lookup_handler w this (pathname url) (req_method req) with
      | Some h =>
          ((settle m (h_call h (context_loc w) w1)).1,
           return_await m (h_call h (context_loc w) w1),
           calls (context_loc w) (pipeline w this) ++ [HandlerCalled h (context_loc w)])
      | None => (w1, Resolved notFound, calls (context_loc w) (pipeline w this))
      end.
Proof.
  intros Hsync Hleaves Hurl.
  destruct (run_synchronous this req w (length (pipeline w this)) Hsync)
    as (w1 & Hrun & Harr & Hreg); [done|].
  rewrite take_ge in Hrun by done.
  exists w1. intros m.
  rewrite (dispatch_exit _ _ _ _ _ _ _ _ _ m Hrun) by
    (by rewrite ?Harr, ?start_frame; simpl; rewrite ?Harr; try apply lookup_ge_None).
  by rewrite (Hreg Hleaves).
Qed.

End progress.

(** The host [Demo.sync_env] is of that kind. *)
Lemma set_prop_cell (target : val) (k : string) (v : val) (w : World) (l : loc) :
  set_prop target k v w !! l = w !! l
  ∨ ∃ o o', w !! l = Some (CObject o) ∧ set_prop target k v w !! l = Some (CObject o').
Proof.
  unfold set_prop. destruct target as [| | | |l']; auto.
  destruct (w !! l') as [[o| | | | |]|] eqn:Hl'; auto.
  destruct (decide (l' = l)) as [<-|]; [|left; by rewrite lookup_insert_ne].
  right. exists o, (<[k := v]> o). by rewrite lookup_insert_eq.
Qed.

Lemma lookup_handler_set_prop (target : val) (k : string) (v : val) (w : World)
    (a : loc) (path method : string) :
  lookup_handler (set_prop target k v w) a path method = lookup_handler w a path method.
Proof.
  assert (∀ l, app_of (set_prop target k v w) l = app_of w l) as Happ.
  { intros l. unfold app_of.
    destruct (set_prop_cell target k v w l) as [->|(o & o' & -> & ->)]; done. }
  assert (∀ l, outer_of (set_prop target k v w) l = outer_of w l) as Hout.
  { intros l. unfold outer_of.
    destruct (set_prop_cell target k v w l) as [->|(o & o' & -> & ->)]; done. }
  assert (∀ l, inner_of (set_prop target k v w) l = inner_of w l) as Hinn.
  { intros l. unfold inner_of.
    destruct (set_prop_cell target k v w l) as [->|(o & o' & -> & ->)]; done. }
  unfold lookup_handler. rewrite Happ, Hout.
  destruct (outer_of w _ !! path); [|done]. by rewrite Hinn.
Qed.

Lemma Demo_sync_synchronous : synchronous (E := Demo.sync_env).
Proof.
  intros mw c w. eexists. split; [reflexivity|]. intros l. apply set_prop_array.
Qed.

Lemma Demo_sync_leaves_registry : leaves_registry (E := Demo.sync_env).
Proof. intros mw c w a path method. apply lookup_handler_set_prop. Qed.

(** ** The properties of the specification *)

(** C1.  A request whose URL has the path of a registered triple and whose
    method is the method of that triple is served by the handler of the
    triple: when the loop over the middleware has come to its end and the
    registry holds [h] for the pair, [fetch] calls [h], the first and only
    handler it calls, on the context it made for this request, and its
    promise from then on follows the promise of [h]; when [h] returns the
    response [r], the [await] suspends once and [fetch] resolves to the
    same [r] at the next turn, and stays resolved. *)
Theorem fetch_invokes_registered_handler `{E : Env MwK HK}
    (this : loc) (req : Request) (w : World) (n : nat)
    (w1 : World) (f : frame) (i : nat) (log : list event) (url : URL) (h : Handler) :
  run n this req w = (w1, Resume f i, log) →
  array_of w1 (f_mws f) !! i = None →
  URL_parse (req_url req) = Some url →
  lookup_handler w1 this (pathname url) (req_method req) = Some h →
  f_c f = context_loc w
  ∧ (∀ h' c', HandlerCalled h' c' ∉ log)
  ∧ (start this req w).1 !! context_loc w
    = Some (CContext {| Context.req := req;
                        Context.data := VRef (scratch_loc w);
                        Context.state := state (app_of w this) |})
  ∧ (∀ m, run (n + S m) this req w
          = ((settle m (h_call h (context_loc w) w1)).1,
             return_await m (h_call h (context_loc w) w1),
             log ++ [HandlerCalled h (context_loc w)]))
  ∧ (∀ w2 r, h_call h (context_loc w) w1 = (w2, Done r) →
       run (n + 1) this req w
       = (w2, Returning r, log ++ [HandlerCalled h (context_loc w)])
       ∧ ∀ m, run (n + S (S m)) this req w
              = (w2, Resolved r, log ++ [HandlerCalled h (context_loc w)])).
Proof.
  intros Hrun Hexit Hurl Hh.
  destruct (run_frame _ _ _ _ _ _ _ _ Hrun) as [Hf Hlog].
  assert (∀ m, run (n + S m) this req w
          = ((settle m (h_call h (context_loc w) w1)).1,
             return_await m (h_call h (context_loc w) w1),
             log ++ [HandlerCalled h (context_loc w)])) as Hm.
  { intros m. rewrite (dispatch_exit _ _ _ _ _ _ _ _ _ m Hrun Hexit Hurl).
    by rewrite Hh. }
  split_and!.
  - by rewrite Hf.
  - done.
  - rewrite start_world. apply lookup_insert_eq.
  - done.
  - intros w2 r Hcall. split.
    + by rewrite (Hm 0), Hcall.
    + intros m. rewrite (Hm (S m)), Hcall. unfold return_await.
      by rewrite !settle_Done.
Qed.

(** On the example host: [GET /] is served by handler [10], which saw the
    [t] that middleware [1] wrote into the scratch object. *)
Lemma fetch_invokes_registered_handler_witness :
  ∃ w2, run (E := Demo.env) 3 Demo.app (Demo.request "GET" "http://localhost/") Demo.world
        = (w2,
           Resolved {| resp_body := "hi"; resp_status := 200;
                       resp_headers := [("x-t", "1")] |},
           [MwCalled 1 7; MwReturned 1 7; HandlerCalled 10 7]).
Proof.
  edestruct (fetch_invokes_registered_handler (E := Demo.env)
               Demo.app (Demo.request "GET" "http://localhost/") Demo.world 1)
    as (_ & _ & _ & _ & Hdone).
  - vm_compute. reflexivity.
  - vm_compute. reflexivity.
  - vm_compute. reflexivity.
  - vm_compute. reflexivity.
  - eexists. apply (proj2 (Hdone _ _ eq_refl) 0).
Defined.

(** C2.  A request for a pair the registry does not hold is answered with
    the response [new Response("Not Found", { status: 404 })]: when the
    loop over the middleware has come to its end, whatever the middleware
    did to the store, and the lookup finds nothing, [fetch] resolves to
    that response without calling any handler, and stays resolved. *)
Theorem fetch_unregistered_is_404 `{E : Env MwK HK}
    (this : loc) (req : Request) (w : World) (n : nat)
    (w1 : World) (f : frame) (i : nat) (log : list event) (url : URL) :
  run n this req w = (w1, Resume f i, log) →
  array_of w1 (f_mws f) !! i = None →
  URL_parse (req_url req) = Some url →
  lookup_handler w1 this (pathname url) (req_method req) = None →
  (∀ m, run (n + S m) this req w = (w1, Resolved notFound, log))
  ∧ (∀ h c, HandlerCalled h c ∉ log)
  ∧ resp_status notFound = 404%Z
  ∧ resp_body notFound = "Not Found"
  ∧ resp_headers notFound = [].
Proof.
  intros Hrun Hexit Hurl Hh.
  destruct (run_frame _ _ _ _ _ _ _ _ Hrun) as [_ Hlog].
  split_and!; try done.
  intros m. rewrite (dispatch_exit _ _ _ _ _ _ _ _ _ m Hrun Hexit Hurl).
  by rewrite Hh.
Qed.

(** On the example host: [GET /missing] runs the middleware and gets the
    404 response. *)
Lemma fetch_unregistered_is_404_witness :
  ∃ w1, run (E := Demo.env) 2 Demo.app (Demo.request "GET" "http://localhost/missing") Demo.world
        = (w1, Resolved notFound, [MwCalled 1 7; MwReturned 1 7]).
Proof.
  edestruct (fetch_unregistered_is_404 (E := Demo.env)
               Demo.app (Demo.request "GET" "http://localhost/missing") Demo.world 1)
    as (Hm & _).
  - vm_compute. reflexivity.
  - vm_compute. reflexivity.
  - vm_compute. reflexivity.
  - vm_compute. reflexivity.
  - eexists. apply (Hm 0).
Defined.

(** C10.  A registration leaves the other bindings of the registry as they
    were: after [addRoute], [get], [post], [put], [delete] or [all], the
    lookup of any pair that is not being registered gives what it gave
    before, a handler or nothing. *)
Theorem registration_leaves_other_bindings
    (this : loc) (path : string) (h : Handler) (w : World) (path' method' : string) :
  wf_app w this →
  (∀ method, (path', method') ≠ (path, method) →
     lookup_handler (App.addRoute this method path h w) this path' method'
     = lookup_handler w this path' method')
  ∧ ((path', method') ≠ (path, "GET") →
     lookup_handler (App.get this path h w) this path' method'
     = lookup_handler w this path' method')
  ∧ ((path', method') ≠ (path, "POST") →
     lookup_handler (App.post this path h w) this path' method'
     = lookup_handler w this path' method')
  ∧ ((path', method') ≠ (path, "PUT") →
     lookup_handler (App.put this path h w) this path' method'
     = lookup_handler w this path' method')
  ∧ ((path', method') ≠ (path, "DELETE") →
     lookup_handler (App.delete this path h w) this path' method'
     = lookup_handler w this path' method')
  ∧ ((∀ method, method ∈ all_methods → (path', method') ≠ (path, method)) →
     lookup_handler (App.all this path h w) this path' method'
     = lookup_handler w this path' method').
Proof.
  intros Hwf.
  assert (∀ method, (path', method') ≠ (path, method) →
     lookup_handler (App.addRoute this method path h w) this path' method'
     = lookup_handler w this path' method') as Hadd.
  { intros method Hne. rewrite lookup_addRoute_this by done.
    case_decide as Hd; [|done]. destruct Hd as [-> ->]. done. }
  split_and!; try (intros; by apply Hadd).
  intros Hne. rewrite lookup_all by done.
  case_decide as Hd; [|done]. destruct Hd as [-> Hin]. by destruct (Hne _ Hin).
Qed.

(** On the example host: registering [/x] or [POST /] leaves [GET /] with
    handler [10], and [get("/x")] binds nothing under [POST]. *)
Lemma registration_leaves_other_bindings_witness :
  lookup_handler (App.all Demo.app "/x" 11 Demo.world) Demo.app "/" "GET" = Some 10%positive
  ∧ lookup_handler (App.post Demo.app "/" 11 Demo.world) Demo.app "/" "GET" = Some 10%positive
  ∧ lookup_handler (App.get Demo.app "/x" 11 Demo.world) Demo.app "/x" "POST" = None.
Proof.
  split_and!.
  - destruct (registration_leaves_other_bindings Demo.app "/x" 11 Demo.world "/" "GET"
                Demo_world_wf) as (_ & _ & _ & _ & _ & Hall).
    rewrite Hall; [vm_compute; reflexivity|]. intros method _ [=].
  - destruct (registration_leaves_other_bindings Demo.app "/" 11 Demo.world "/" "GET"
                Demo_world_wf) as (_ & _ & Hpost & _).
    rewrite Hpost; [vm_compute; reflexivity|]. intros [=].
  - destruct (registration_leaves_other_bindings Demo.app "/x" 11 Demo.world "/x" "POST"
                Demo_world_wf) as (_ & Hget & _).
    rewrite Hget; [vm_compute; reflexivity|]. intros [=].
Defined.

(** C6.  The registry holds one handler for a pair, the last one
    registered: registering [h2] for a pair that has [h1] leaves [h2] and
    not [h1] under the pair, and a dispatch of that pair made afterwards
    calls [h2] and no other handler. *)
Theorem reregistration_replaces `{E : Env MwK HK}
    (this : loc) (method path : string) (h1 h2 : Handler) (w : World) :
  wf_app w this →
  lookup_handler w this path method = Some h1 →
  lookup_handler (App.addRoute this method path h2 w) this path method = Some h2
  ∧ (h1 ≠ h2 →
     lookup_handler (App.addRoute this method path h2 w) this path method ≠ Some h1)
  ∧ (∀ req n w1 f i log url m,
       run n this req (App.addRoute this method path h2 w) = (w1, Resume f i, log) →
       array_of w1 (f_mws f) !! i = None →
       URL_parse (req_url req) = Some url →
       pathname url = path → req_method req = method →
       lookup_handler w1 this path method
       = lookup_handler (App.addRoute this method path h2 w) this path method →
       (run (n + S m) this req (App.addRoute this method path h2 w)).2
       = log ++ [HandlerCalled h2 (context_loc (App.addRoute this method path h2 w))]
       ∧ ∀ h c, HandlerCalled h c
                  ∈ (run (n + S m) this req (App.addRoute this method path h2 w)).2 →
                h = h2).
Proof.
  intros Hwf Hold.
  assert (lookup_handler (App.addRoute this method path h2 w) this path method = Some h2)
    as Hnew.
  { rewrite lookup_addRoute_this by done. by rewrite decide_True. }
  split_and!; [done|congruence|].
  intros req n w1 f i log url m Hrun Hexit Hurl <- <- Hkeep.
  rewrite (dispatch_exit _ _ _ _ _ _ _ _ _ m Hrun Hexit Hurl), Hkeep, Hnew. simpl.
  split; [done|]. intros h c [Hin|Hin%list_elem_of_singleton]%elem_of_app; [|congruence].
  destruct (run_frame _ _ _ _ _ _ _ _ Hrun) as [_ Hlog]. by apply Hlog in Hin.
Qed.

(** On the example host: after [get("/", 11)] over [get("/", 10)] a
    [GET /] calls [11]. *)
Lemma reregistration_replaces_witness :
  lookup_handler (App.get Demo.app "/" 11 Demo.world) Demo.app "/" "GET" = Some 11%positive
  ∧ (run (E := Demo.env) 2 Demo.app (Demo.request "GET" "http://localhost/")
       (App.get Demo.app "/" 11 Demo.world)).2
    = [MwCalled 1 7; MwReturned 1 7; HandlerCalled 11 7].
Proof.
  destruct (reregistration_replaces (E := Demo.env) Demo.app "GET" "/" 10 11 Demo.world
              Demo_world_wf) as (Hnew & _ & Hrun); [vm_compute; reflexivity|].
  split; [apply Hnew|].
  edestruct (Hrun (Demo.request "GET" "http://localhost/") 1) as [Hlog _].
  - vm_compute. reflexivity.
  - vm_compute. reflexivity.
  - vm_compute. reflexivity.
  - vm_compute. reflexivity.
  - vm_compute. reflexivity.
  - vm_compute. reflexivity.
  - apply (Hlog : (run 2 _ _ _).2 = _).
Defined.

(** C7.  [all(path, h)] is the four registrations of [h] under [GET],
    [POST], [PUT] and [DELETE] and nothing more: it leaves the store that
    [get], [post], [put] and [delete] leave, the lookup of each of the four
    methods gives [h], and a dispatch of any of them for that path calls
    [h]. *)
Theorem all_is_four_registrations `{E : Env MwK HK}
    (this : loc) (path : string) (h : Handler) (w : World) :
  wf_app w this →
  App.all this path h w = all_as_four_registrations this path h w
  ∧ (∀ method, method ∈ all_methods →
       lookup_handler (App.all this path h w) this path method = Some h)
  ∧ (∀ req n w1 f i log url m,
       run n this req (App.all this path h w) = (w1, Resume f i, log) →
       array_of w1 (f_mws f) !! i = None →
       URL_parse (req_url req) = Some url →
       pathname url = path → req_method req ∈ all_methods →
       lookup_handler w1 this path (req_method req)
       = lookup_handler (App.all this path h w) this path (req_method req) →
       (run (n + S m) this req (App.all this path h w)).2
       = log ++ [HandlerCalled h (context_loc (App.all this path h w))]).
Proof.
  intros Hwf.
  assert (∀ method, method ∈ all_methods →
       lookup_handler (App.all this path h w) this path method = Some h) as Hall.
  { intros method Hin. rewrite lookup_all by done. by rewrite decide_True. }
  split_and!; [|exact Hall|].
  { unfold all_as_four_registrations, App.all, App.delete, App.put, App.post, App.get.
    reflexivity. }
  intros req n w1 f i log url m Hrun Hexit Hurl <- Hin Hkeep.
  rewrite (dispatch_exit _ _ _ _ _ _ _ _ _ m Hrun Hexit Hurl), Hkeep, (Hall _ Hin).
  done.
Qed.

(** On the example host: after [all("/x", 11)] a [DELETE /x] calls [11]. *)
Lemma all_is_four_registrations_witness :
  (run (E := Demo.env) 2 Demo.app (Demo.request "DELETE" "http://localhost/x")
     (App.all Demo.app "/x" 11 Demo.world)).2
  = [MwCalled 1 8; MwReturned 1 8]
    ++ [HandlerCalled 11 (context_loc (App.all Demo.app "/x" 11 Demo.world))].
Proof.
  destruct (all_is_four_registrations (E := Demo.env) Demo.app "/x" 11 Demo.world
              Demo_world_wf) as (_ & _ & Hrun).
  eassert (_ = _) as Hlog.
  - eapply (Hrun (Demo.request "DELETE" "http://localhost/x") 1 _ _ _ _ _ 0).
    + vm_compute. reflexivity.
    + vm_compute. reflexivity.
    + vm_compute. reflexivity.
    + vm_compute. reflexivity.
    + unfold all_methods. set_solver.
    + vm_compute. reflexivity.
  - exact Hlog.
Defined.

(** C8.  The lookup compares strings as they are.  The pair looked up is
    the [pathname] of the parsed URL of the request and the method of the
    request, unchanged; a registered handler is found under its own path
    and method and under no other spelling of them (a trailing slash,
    another case, a query string left in the path); the [search] and the
    [hash] of the URL play no part. *)
Theorem lookup_is_exact `{E : Env MwK HK} :
  (∀ (f : frame) (i : nat) (w : World) (url : URL),
     array_of w (f_mws f) !! i = None →
     URL_parse (req_url (f_req f)) = Some url →
     resume (Resume f i) w
     = match lookup_handler w (f_this f) (pathname url) (req_method (f_req f)) with
       | Some h =>
           ((h_call h (f_c f) w).1, after_handler (h_call h (f_c f) w).2,
            [HandlerCalled h (f_c f)])
       | None => (w, Resolved notFound, [])
       end)
  ∧ (∀ (this : loc) (method path : string) (h : Handler) (w : World)
       (path' method' : string),
     wf_app w this →
     lookup_handler (App.addRoute this method path h w) this path' method'
     = if decide (path' = path ∧ method' = method) then Some h
       else lookup_handler w this path' method')
  ∧ (∀ (this : loc) (h : Handler) (w : World),
     wf_app w this →
     lookup_handler (App.get this "/users" h w) this "/users/" "GET"
     = lookup_handler w this "/users/" "GET"
     ∧ lookup_handler (App.get this "/users" h w) this "/Users" "GET"
       = lookup_handler w this "/Users" "GET"
     ∧ lookup_handler (App.get this "/users" h w) this "/users" "get"
       = lookup_handler w this "/users" "get"
     ∧ lookup_handler (App.get this "/users" h w) this "/users?x=1" "GET"
       = lookup_handler w this "/users?x=1" "GET")
  ∧ (∀ (f f' : frame) (w : World) (url url' : URL),
     f_this f' = f_this f → f_c f' = f_c f →
     req_method (f_req f') = req_method (f_req f) →
     URL_parse (req_url (f_req f)) = Some url →
     URL_parse (req_url (f_req f')) = Some url' →
     pathname url' = pathname url →
     route f' w = route f w).
Proof.
  split_and!.
  - intros f i w url Hexit Hurl. rewrite (resume_exit _ _ _ Hexit).
    by apply route_lookup.
  - intros. by apply lookup_addRoute_this.
  - intros this h w Hwf. unfold App.get.
    rewrite !lookup_addRoute_this by done. by rewrite !decide_False by (by intros [[=] [=]]).
  - intros f f' w url url' Hthis Hc Hm Hurl Hurl' Hp.
    rewrite (route_lookup f w url Hurl), (route_lookup f' w url' Hurl').
    by rewrite Hthis, Hc, Hm, Hp.
Qed.

(** On the example host: the query of [/?x=1] does not enter the lookup,
    and [get] is not [GET]. *)
Lemma lookup_is_exact_witness :
  let f := {| f_this := Demo.app; f_req := Demo.request "GET" "http://localhost/?x=1";
              f_c := 7; f_mws := 2 |} in
  resume (E := Demo.env) (Resume f 1) Demo.world
  = match lookup_handler Demo.world Demo.app "/" "GET" with
    | Some h =>
        ((h_call (Env := Demo.env) h 7 Demo.world).1,
         after_handler (h_call (Env := Demo.env) h 7 Demo.world).2,
         [HandlerCalled h 7])
    | None => (Demo.world, Resolved notFound, [])
    end
  ∧ lookup_handler Demo.world Demo.app "/" "GET" = Some 10%positive
  ∧ lookup_handler Demo.world Demo.app "/" "get" = None.
Proof.
  destruct (lookup_is_exact (E := Demo.env)) as (Hpair & _).
  intros f. split_and!.
  - apply (Hpair f 1 Demo.world {| pathname := "/"; search := "?x=1"; hash := EmptyString |}).
    + vm_compute. reflexivity.
    + vm_compute. reflexivity.
  - vm_compute. reflexivity.
  - vm_compute. reflexivity.
Defined.

(** C9.  The dispatcher catches nothing.  What a middleware throws, at its
    call or after a suspension, what the handler throws, and what
    [new URL] throws on a URL it cannot parse, rejects the promise of
    [fetch] with that very value; the promise then stays rejected and the
    dispatcher makes no further call.  A middleware that fails ends the
    dispatch before any lookup: no handler has been or will be called. *)
Theorem failures_propagate `{E : Env MwK HK}
    (this : loc) (req : Request) (w : World) (n : nat)
    (w1 : World) (t1 : task MwK HK) (log1 : list event) :
  run n this req w = (w1, t1, log1) →
  (∀ f i mw w2 e, t1 = Resume f i →
     array_of w1 (f_mws f) !! i = Some mw →
     mw_call mw (f_c f) w1 = (w2, Raise e) →
     ∀ m, run (n + S m) this req w = (w2, Rejected e, log1 ++ [MwCalled mw (f_c f)])
          ∧ ∀ h c, HandlerCalled h c ∉ log1 ++ [MwCalled mw (f_c f)])
  ∧ (∀ f i mw k w2 e, t1 = AwaitMw f i mw k →
     mw_resume k w1 = (w2, Raise e) →
     ∀ m, run (n + S m) this req w = (w2, Rejected e, log1)
          ∧ ∀ h c, HandlerCalled h c ∉ log1)
  ∧ (∀ f i, t1 = Resume f i →
     array_of w1 (f_mws f) !! i = None →
     URL_parse (req_url req) = None →
     ∀ m, run (n + S m) this req w = (w1, Rejected (URL_error (req_url req)), log1)
          ∧ ∀ h c, HandlerCalled h c ∉ log1)
  ∧ (∀ f i url h w2 e, t1 = Resume f i →
     array_of w1 (f_mws f) !! i = None →
     URL_parse (req_url req) = Some url →
     lookup_handler w1 this (pathname url) (req_method req) = Some h →
     h_call h (f_c f) w1 = (w2, Raise e) →
     ∀ m, run (n + S m) this req w
          = (w2, Rejected e, log1 ++ [HandlerCalled h (f_c f)]))
  ∧ (∀ k w2 e, t1 = AwaitH k →
     h_resume k w1 = (w2, Raise e) →
     ∀ m, run (n + S m) this req w = (w2, Rejected e, log1)).
Proof.
  intros Hrun. split_and!.
  - intros f i mw w2 e -> Hmw Hcall m.
    destruct (run_frame _ _ _ _ _ _ _ _ Hrun) as [_ Hlog]. split.
    + rewrite run_add, Hrun. cbn [turns resume]. unfold for_of.
      rewrite Hmw, Hcall. simpl. apply turns_Rejected.
    + intros h c [Hin|Hin%list_elem_of_singleton]%elem_of_app; [|done].
      by apply Hlog in Hin.
  - intros f i mw k w2 e -> Hres m.
    destruct (run_frame_await _ _ _ _ _ _ _ _ _ _ Hrun) as [_ Hlog]. split; [|done].
    rewrite run_add, Hrun. cbn [turns resume]. rewrite Hres. simpl.
    rewrite app_nil_r. apply turns_Rejected.
  - intros f i -> Hexit Hurl m.
    destruct (run_frame _ _ _ _ _ _ _ _ Hrun) as [Hf Hlog]. split; [|done].
    rewrite run_add, Hrun. cbn [turns]. rewrite (resume_exit _ _ _ Hexit).
    unfold route. rewrite Hf; simpl. rewrite Hurl, app_nil_r. apply turns_Rejected.
  - intros f i url h w2 e -> Hexit Hurl Hh Hcall m.
    destruct (run_frame _ _ _ _ _ _ _ _ Hrun) as [Hf _].
    rewrite (dispatch_exit _ _ _ _ _ _ _ _ _ m Hrun Hexit Hurl), Hh.
    rewrite Hf in Hcall |- *; simpl in *. rewrite Hcall, settle_Raise.
    destruct m; [done|]. unfold return_await. by rewrite !settle_Raise.
  - intros k w2 e -> Hres m.
    rewrite run_add, Hrun. cbn [turns resume]. rewrite Hres. simpl.
    rewrite app_nil_r. apply turns_Rejected.
Qed.

(** On the example host with the pipeline [1; 2; 1]: middleware [2]
    throws, the promise is rejected with what it threw, and neither the
    third middleware nor the handler of [GET /] is called. *)
Lemma failures_propagate_witness :
  ∃ w2, ∀ m,
    run (E := Demo.env) (1 + S m) Demo.app (Demo.request "GET" "http://localhost/")
      (App.use Demo.app 1 (App.use Demo.app 2 Demo.world))
    = (w2, Rejected (VStr "boom"), [MwCalled 1 7; MwReturned 1 7] ++ [MwCalled 2 7]).
Proof.
  edestruct (failures_propagate (E := Demo.env) Demo.app
               (Demo.request "GET" "http://localhost/")
               (App.use Demo.app 1 (App.use Demo.app 2 Demo.world)) 1)
    as (Hmw & _).
  - vm_compute. reflexivity.
  - eexists. intros m. eapply proj1.
    eapply (Hmw {| f_this := Demo.app;
                   f_req := Demo.request "GET" "http://localhost/";
                   f_c := 7; f_mws := 2 |} 1 2%positive _ (VStr "boom") eq_refl).
    + vm_compute. reflexivity.
    + vm_compute. reflexivity.
Defined.

(** *** The loop goes through the pipeline

    A middleware that completes takes the loop one entry further, and a
    pipeline of such middleware takes it to its end. *)

Section liveness.
Context `{E : Env MwK HK}.

Lemma mw_settle_Done m (w : World) : mw_settle m (w, Done ()) = (w, Done ()).
Proof. by destruct m. Qed.

(** The log of a dispatch only grows. *)
Lemma turns_log m (x : World * task MwK HK * list event) :
  ∃ evs, (turns m x).2 = x.2 ++ evs.
Proof.
  revert x. induction m as [|m IH]; intros [[w t] log].
  - exists []. by rewrite app_nil_r.
  - cbn [turns]. destruct (resume t w) as [[w' t'] evs].
    destruct (IH (w', t', log ++ evs)) as [evs' Hevs]. exists (evs ++ evs').
    rewrite Hevs. cbn [snd]. by rewrite <-app_assoc.
Qed.

(** While the middleware is awaited the dispatch makes no call; when its
    promise has settled the loop is at the next entry. *)
Lemma await_mw_turns (f : frame) (i : nat) (mw : Middleware) (m : nat) :
  ∀ (w0 : World) (s0 : status MwK unit) (log0 : list event) (w' : World),
    mw_settle m (w0, s0) = (w', Done ()) →
    ∃ j, turns j (w0, (after_mw (HK := HK) f i mw s0).1,
                  log0 ++ (after_mw (HK := HK) f i mw s0).2)
         = (w', Resume f (S i), log0 ++ [MwReturned mw (f_c f)]).
Proof.
  induction m as [|m IH]; intros w0 s0 log0 w' Hs.
  - simpl in Hs. injection Hs as -> ->. by exists 0.
  - destruct s0 as [[]|e|k]; cbn [mw_settle] in Hs.
    + injection Hs as ->. by exists 0.
    + discriminate.
    + destruct (mw_resume k w0) as [w1 s1] eqn:Hk.
      destruct (IH w1 s1 log0 w' Hs) as [j Hj]. exists (S j).
      cbn [turns resume after_mw fst snd]. rewrite Hk.
      destruct (after_mw (HK := HK) f i mw s1) as [t1 evs1].
      cbn [fst snd] in Hj. by rewrite app_nil_r.
Qed.

Lemma loop_turn (f : frame) (i : nat) (mw : Middleware) (w : World) (log : list event) :
  array_of w (f_mws f) !! i = Some mw →
  completes mw →
  ∃ j w', turns j (w, Resume f i, log)
          = (w', Resume f (S i), log ++ [MwCalled mw (f_c f); MwReturned mw (f_c f)])
        ∧ ∀ l, array_of w' l = array_of w l.
Proof.
  intros Hmw Hc. destruct (Hc (f_c f) w) as (m & w' & Hs & Harr).
  destruct (mw_call mw (f_c f) w) as [w0 s0] eqn:Hcall.
  destruct (await_mw_turns f i mw m w0 s0 (log ++ [MwCalled mw (f_c f)]) w' Hs)
    as [j Hj].
  exists (S j), w'. split; [|done].
  cbn [turns resume]. unfold for_of. rewrite Hmw, Hcall.
  destruct (after_mw (HK := HK) f i mw s0) as [t0 evs0]. cbn [fst snd] in Hj.
  rewrite <-!app_assoc in Hj. exact Hj.
Qed.

Lemma run_completes (this : loc) (req : Request) (w : World) (i : nat) :
  Forall completes (pipeline w this) →
  i ≤ length (pipeline w this) →
  ∃ n wi, run n this req w
          = (wi, Resume (start this req w).2 i,
             calls (context_loc w) (take i (pipeline w this)))
        ∧ ∀ l, array_of wi l = array_of w l.
Proof.
  intros Hall. induction i as [|i IH]; intros Hi.
  - exists 0, (start this req w).1. split; [|apply start_array].
    unfold run. by destruct (start this req w).
  - destruct IH as (n & wi & Hrun & Harr); [lia|].
    destruct (lookup_lt_is_Some_2 (pipeline w this) i) as [mw Hmw]; [lia|].
    assert (completes mw) as Hc.
    { rewrite Forall_forall in Hall. apply Hall. by eapply list_elem_of_lookup_2. }
    destruct (loop_turn (start this req w).2 i mw wi
                (calls (context_loc w) (take i (pipeline w this)))) as (j & w' & Hj & Harr');
      [|done|].
    { rewrite Harr, start_frame. exact Hmw. }
    exists (n + j), w'. split; [|intros l; by rewrite Harr', Harr].
    rewrite run_add, Hrun, Hj, start_frame. cbn [f_c].
    by rewrite (take_S_r _ _ _ Hmw), calls_app.
Qed.

End liveness.

(** The middleware of the example host that complete. *)
Lemma Demo_completes_1 : completes (E := Demo.env) 1.
Proof. intros c w. exists 0. eexists. split; [reflexivity|]. intros l. apply set_prop_array. Qed.

Lemma Demo_completes_3 : completes (E := Demo.env) 3.
Proof. intros c w. exists 1. eexists. split; [reflexivity|]. intros l. apply set_prop_array. Qed.

Lemma Demo_completes_4 : completes (E := Demo.env) 4.
Proof. intros c w. exists 0. eexists. split; [reflexivity|]. intros l. apply set_prop_array. Qed.

(** C4, as the code has it.  The loop calls the middleware one after the
    other in the order of the pipeline, on the context of the request, and
    awaits each before it goes on: a turn of the loop calls the middleware
    at the current entry and nothing else; when that middleware waits, the
    dispatch waits with it and calls nothing until it has returned; when
    it has returned, the loop is at the next entry; when it throws, at its
    call or later, the dispatch ends there, rejected, and the middleware
    after it are not called.  When every middleware of the pipeline
    completes, the dispatch does come to the end of the loop, with each
    middleware of the pipeline called once and returned, in order, and
    only then does the lookup: the request is answered 404 when no route
    matches, and a handler is called after the whole pipeline.  At every
    point of any dispatch the middleware called so far are a prefix of the
    pipeline. *)
Theorem middleware_run_in_order `{E : Env MwK HK}
    (this : loc) (req : Request) (w : World) :
  (Encapsulated E →
   ∀ n w' t log, run n this req w = (w', t, log) →
     mw_called log `prefix_of` array_of w' (middlewares (app_of w this))
     ∧ (∀ f i, t = Resume f i →
          array_of w' (middlewares (app_of w this)) !! i = None →
          log = calls (context_loc w) (array_of w' (middlewares (app_of w this))))
     ∧ ((∃ k, t = AwaitH k) ∨ (∃ r, t = Returning r) ∨ (∃ r, t = Resolved r)
        ∨ (∃ h c, HandlerCalled h c ∈ log) →
        ∃ P hs,
          pipeline w this `prefix_of` P
          ∧ P `prefix_of` array_of w' (middlewares (app_of w this))
          ∧ log = calls (context_loc w) P ++ hs
          ∧ (hs = [] ∨ ∃ h, hs = [HandlerCalled h (context_loc w)])))
  ∧ (∀ n w1 f i log mw,
       run n this req w = (w1, Resume f i, log) →
       array_of w1 (f_mws f) !! i = Some mw →
       (∀ w2, mw_call mw (context_loc w) w1 = (w2, Done ()) →
          run (n + 1) this req w
          = (w2, Resume f (S i),
             log ++ [MwCalled mw (context_loc w); MwReturned mw (context_loc w)]))
       ∧ (∀ w2 k, mw_call mw (context_loc w) w1 = (w2, Await k) →
            run (n + 1) this req w
            = (w2, AwaitMw f i mw k, log ++ [MwCalled mw (context_loc w)]))
       ∧ (∀ w2 e, mw_call mw (context_loc w) w1 = (w2, Raise e) →
            ∀ m, run (n + S m) this req w
                 = (w2, Rejected e, log ++ [MwCalled mw (context_loc w)])))
  ∧ (∀ n w1 f i mw k log,
       run n this req w = (w1, AwaitMw f i mw k, log) →
       (∀ w2 k', mw_resume k w1 = (w2, Await k') →
          run (n + 1) this req w = (w2, AwaitMw f i mw k', log))
       ∧ (∀ w2, mw_resume k w1 = (w2, Done ()) →
            run (n + 1) this req w
            = (w2, Resume f (S i), log ++ [MwReturned mw (context_loc w)]))
       ∧ (∀ w2 e, mw_resume k w1 = (w2, Raise e) →
            ∀ m, run (n + S m) this req w = (w2, Rejected e, log)))
  ∧ (Forall completes (pipeline w this) →
     ∃ n w1,
       run n this req w
       = (w1, Resume (start this req w).2 (length (pipeline w this)),
          calls (context_loc w) (pipeline w this))
       ∧ mw_called (calls (context_loc w) (pipeline w this)) = pipeline w this
       ∧ array_of w1 (middlewares (app_of w this)) = pipeline w this
       ∧ (∀ j, j < n → ∀ h c, HandlerCalled h c ∉ (run j this req w).2)
       ∧ (∀ url, URL_parse (req_url req) = Some url →
            lookup_handler w1 this (pathname url) (req_method req) = None →
            ∀ m, run (n + S m) this req w
                 = (w1, Resolved notFound, calls (context_loc w) (pipeline w this)))
       ∧ (∀ url h, URL_parse (req_url req) = Some url →
            lookup_handler w1 this (pathname url) (req_method req) = Some h →
            ∀ m, (run (n + S m) this req w).2
                 = calls (context_loc w) (pipeline w this)
                   ++ [HandlerCalled h (context_loc w)])).
Proof.
  split_and!.
  - intros Henc n w' t log Hrun. pose proof (order_inv_run n this req w) as Hinv.
    rewrite Hrun, start_frame in Hinv. destruct Hinv as [_ Ht].
    set (f0 := {| f_this := this; f_req := req; f_c := context_loc w;
                  f_mws := middlewares (app_of w this) |}) in *.
    change (middlewares (app_of w this)) with (f_mws f0).
    change (context_loc w) with (f_c f0).
    assert (∀ P, log = calls (f_c f0) P → ∀ h c, HandlerCalled h c ∉ log) as Hno.
    { intros P -> h c. apply handler_not_in_calls. }
    assert (∀ i mw, log = calls (f_c f0) (take i (array_of w' (f_mws f0)))
                          ++ [MwCalled mw (f_c f0)] →
                    ∀ h c, HandlerCalled h c ∉ log) as Hno'.
    { intros i mw -> h c [Hin|Hin%list_elem_of_singleton]%elem_of_app; [|done].
      by apply handler_not_in_calls in Hin. }
    destruct t as [f i|f i mw k|k|r|r|e].
    + destruct Ht as (-> & Hi & Hlog). split_and!.
      * rewrite Hlog. unfold mw_called.
        fold (mw_called (calls (f_c f0) (take i (array_of w' (f_mws f0))))).
        rewrite mw_called_calls_list. apply prefix_take.
      * intros f i' [= <- <-] Hnone. apply lookup_ge_None in Hnone.
        by rewrite Hlog, take_ge.
      * intros [[k [=]]|[[r [=]]|[[r [=]]|(h & c & Hin)]]].
        by apply (Hno _ Hlog) in Hin.
    + destruct Ht as (-> & Hi & Hlog). split_and!.
      * apply (mw_called_in f0). by exists i, mw.
      * intros f i' [=].
      * intros [[k' [=]]|[[r [=]]|[[r [=]]|(h & c & Hin)]]].
        by apply (Hno' _ _ Hlog) in Hin.
    + split_and!; [by apply (mw_called_past f0 (pipeline w this))|by intros ?? [=]|done].
    + split_and!; [by apply (mw_called_past f0 (pipeline w this))|by intros ?? [=]|done].
    + split_and!; [by apply (mw_called_past f0 (pipeline w this))|by intros ?? [=]|done].
    + destruct Ht as [Hin|Hpast].
      * split_and!; [by apply (mw_called_in f0)|by intros ?? [=]|].
        destruct Hin as (i & mw & _ & Hlog).
        intros [[k' [=]]|[[r [=]]|[[r [=]]|(h & c & Hin)]]].
        by apply (Hno' _ _ Hlog) in Hin.
      * split_and!; [by apply (mw_called_past f0 (pipeline w this))|by intros ?? [=]|done].
  - intros n w1 f i log mw Hrun Hmw.
    destruct (run_frame _ _ _ _ _ _ _ _ Hrun) as [Hf _].
    assert (f_c f = context_loc w) as Hc by by rewrite Hf.
    assert (∀ w2 s, mw_call mw (context_loc w) w1 = (w2, s) →
              run (n + 1) this req w
              = (w2, (after_mw (HK := HK) f i mw s).1,
                 log ++ MwCalled mw (context_loc w) :: (after_mw (HK := HK) f i mw s).2))
      as Hturn.
    { intros w2 s Hcall. rewrite run_add, Hrun. cbn [turns resume]. unfold for_of.
      rewrite Hmw, Hc, Hcall. by destruct (after_mw (HK := HK) f i mw s). }
    split_and!.
    + intros w2 Hcall. rewrite (Hturn _ _ Hcall). cbn [after_mw fst snd]. by rewrite Hc.
    + intros w2 k Hcall. by rewrite (Hturn _ _ Hcall).
    + intros w2 e Hcall m. replace (S m) with (1 + m) by done.
      rewrite Nat.add_assoc, run_add, (Hturn _ _ Hcall). apply turns_Rejected.
  - intros n w1 f i mw k log Hrun.
    destruct (run_frame_await _ _ _ _ _ _ _ _ _ _ Hrun) as [Hf _].
    assert (f_c f = context_loc w) as Hc by by rewrite Hf.
    assert (∀ w2 s, mw_resume k w1 = (w2, s) →
              run (n + 1) this req w
              = (w2, (after_mw (HK := HK) f i mw s).1,
                 log ++ (after_mw (HK := HK) f i mw s).2))
      as Hturn.
    { intros w2 s Hres. rewrite run_add, Hrun. cbn [turns resume]. rewrite Hres.
      by destruct (after_mw (HK := HK) f i mw s). }
    split_and!.
    + intros w2 k' Hres. rewrite (Hturn _ _ Hres). cbn [after_mw fst snd].
      by rewrite app_nil_r.
    + intros w2 Hres. rewrite (Hturn _ _ Hres). cbn [after_mw fst snd]. by rewrite Hc.
    + intros w2 e Hres m. replace (S m) with (1 + m) by done.
      rewrite Nat.add_assoc, run_add, (Hturn _ _ Hres). cbn [after_mw fst snd].
      rewrite app_nil_r. apply turns_Rejected.
  - intros Hall.
    destruct (run_completes this req w (length (pipeline w this)) Hall)
      as (n & w1 & Hrun & Harr); [done|].
    rewrite take_ge in Hrun by done.
    assert (array_of w1 (f_mws (start this req w).2) !! length (pipeline w this) = None)
      as Hexit.
    { rewrite Harr, start_frame. by apply lookup_ge_None. }
    exists n, w1. split_and!.
    + done.
    + apply mw_called_calls_list.
    + apply Harr.
    + intros j Hj h c Hin.
      destruct (turns_log (n - j) (run j this req w)) as [evs Hevs].
      rewrite <-run_add in Hevs. replace (j + (n - j)) with n in Hevs by lia.
      rewrite Hrun in Hevs. cbn [snd] in Hevs.
      apply (handler_not_in_calls (context_loc w) (pipeline w this) h c).
      rewrite Hevs. apply elem_of_app. by left.
    + intros url Hurl Hnone m.
      rewrite (dispatch_exit _ _ _ _ _ _ _ _ _ m Hrun Hexit Hurl). by rewrite Hnone.
    + intros url h Hurl Hsome m.
      rewrite (dispatch_exit _ _ _ _ _ _ _ _ _ m Hrun Hexit Hurl). by rewrite Hsome.
Qed.

(** On the example host with the pipeline [1; 3; 4], [3] asynchronous:
    after two turns middleware [3] has been called and is awaited, [4] has
    not been called; and the dispatch comes to the end of the loop with
    the three middleware called and returned in order. *)
Lemma middleware_run_in_order_witness :
  (∃ w2 f k,
     run (E := Demo.env) (1 + 1) Demo.app (Demo.request "GET" "http://localhost/")
       (App.use Demo.app 4 (App.use Demo.app 3 Demo.world))
     = (w2, AwaitMw f 1 3 k,
        [MwCalled 1 7; MwReturned 1 7]
          ++ [MwCalled 3 (context_loc (App.use Demo.app 4 (App.use Demo.app 3 Demo.world)))]))
  ∧ ∃ n w1 f,
      run (E := Demo.env) n Demo.app (Demo.request "GET" "http://localhost/")
        (App.use Demo.app 4 (App.use Demo.app 3 Demo.world))
      = (w1, Resume f 3,
         [MwCalled 1 7; MwReturned 1 7; MwCalled 3 7; MwReturned 3 7;
          MwCalled 4 7; MwReturned 4 7]).
Proof.
  destruct (middleware_run_in_order (E := Demo.env) Demo.app
              (Demo.request "GET" "http://localhost/")
              (App.use Demo.app 4 (App.use Demo.app 3 Demo.world)))
    as (_ & Hstep & _ & Hlive).
  split.
  - edestruct (Hstep 1) as (_ & Hawait & _).
    + vm_compute. reflexivity.
    + vm_compute. reflexivity.
    + eexists _, _, _. eapply Hawait. vm_compute. reflexivity.
  - assert (pipeline (App.use Demo.app 4 (App.use Demo.app 3 Demo.world)) Demo.app
            = [1; 3; 4]%positive) as HP by (vm_compute; reflexivity).
    assert (calls (context_loc (App.use Demo.app 4 (App.use Demo.app 3 Demo.world)))
              [1; 3; 4]%positive
            = [MwCalled 1 7; MwReturned 1 7; MwCalled 3 7; MwReturned 3 7;
               MwCalled 4 7; MwReturned 4 7]) as Hc by (vm_compute; reflexivity).
    rewrite HP, Hc in Hlive.
    destruct Hlive as (n & w1 & Hrun & _).
    + apply Forall_cons_2; [exact Demo_completes_1|].
      apply Forall_cons_2; [exact Demo_completes_3|].
      apply Forall_cons_2; [exact Demo_completes_4|]. apply Forall_nil_2.
    + exists n, w1. eexists. exact Hrun.
Defined.

(** C4 as the specification words it does not hold: a middleware that
    throws ends the dispatch, and the middleware after it in the pipeline
    are not executed.  With the pipeline [1; 2; 4] of the example host,
    where [2] throws, [4] is never called. *)
Lemma middleware_after_failure_counterexample :
  4%positive ∈ pipeline (App.use Demo.app 4 (App.use Demo.app 2 Demo.world)) Demo.app
  ∧ ∀ n c, MwCalled 4 c
           ∉ (run (E := Demo.env) n Demo.app (Demo.request "GET" "http://localhost/")
                (App.use Demo.app 4 (App.use Demo.app 2 Demo.world))).2.
Proof.
  split.
  - assert (pipeline (App.use Demo.app 4 (App.use Demo.app 2 Demo.world)) Demo.app
            = [1; 2; 4]%positive) as -> by (vm_compute; reflexivity).
    set_solver.
  - intros n c.
    assert (∃ w2, run (E := Demo.env) 2 Demo.app (Demo.request "GET" "http://localhost/")
                    (App.use Demo.app 4 (App.use Demo.app 2 Demo.world))
                  = (w2, Rejected (VStr "boom"),
                     [MwCalled 1 7; MwReturned 1 7; MwCalled 2 7])) as [w2 H2]
      by (eexists; vm_compute; reflexivity).
    destruct n as [|[|m]].
    + assert ((run (E := Demo.env) 0 Demo.app (Demo.request "GET" "http://localhost/")
                 (App.use Demo.app 4 (App.use Demo.app 2 Demo.world))).2 = []) as ->
        by (vm_compute; reflexivity).
      apply not_elem_of_nil.
    + assert ((run (E := Demo.env) 1 Demo.app (Demo.request "GET" "http://localhost/")
                 (App.use Demo.app 4 (App.use Demo.app 2 Demo.world))).2
              = [MwCalled 1 7; MwReturned 1 7]) as -> by (vm_compute; reflexivity).
      intros Hin. apply elem_of_cons in Hin as [[=]|Hin].
      by apply list_elem_of_singleton in Hin.
    + change (S (S m)) with (2 + m). rewrite run_add, H2, turns_Rejected. cbn [snd].
      intros Hin. apply elem_of_cons in Hin as [[=]|Hin].
      apply elem_of_cons in Hin as [[=]|Hin].
      by apply list_elem_of_singleton in Hin.
Qed.

(** C5.  Each call of [fetch] makes its own scratch object.  The object is
    new (no cell of the store was at its location) and empty, and it is the
    [data] of the context of that call; making it changes no cell that was
    there.  However requests arrive and however the event loop interleaves
    their stretches, the scratch objects of two requests in flight are two
    objects, so that a property written into one is never read from the
    other. *)
Theorem scratch_is_per_request `{E : Env MwK HK} {Henc : Encapsulated E} :
  (∀ (this : loc) (req : Request) (w : World),
     w !! scratch_loc w = None
     ∧ w !! context_loc w = None
     ∧ (start this req w).1 !! scratch_loc w = Some (CObject ∅)
     ∧ (start this req w).1 !! context_loc w
       = Some (CContext {| Context.req := req;
                           Context.data := VRef (scratch_loc w);
                           Context.state := state (app_of w this) |})
     ∧ f_c (start this req w).2 = context_loc w
     ∧ extends w (start this req w).1)
  ∧ (∀ (w0 w : World) (ts : list (loc * task MwK HK)) (i j : nat)
       (di dj : loc) (ti tj : task MwK HK),
     rtc pool_step (w0, []) (w, ts) →
     ts !! i = Some (di, ti) → ts !! j = Some (dj, tj) → i ≠ j →
     di ≠ dj
     ∧ di ∈ dom w ∧ dj ∈ dom w
     ∧ ∀ k v, set_prop (VRef di) k v w !! dj = w !! dj
              ∧ ∀ k', get_prop (VRef dj) k' (set_prop (VRef di) k v w)
                      = get_prop (VRef dj) k' w).
Proof.
  split.
  - intros this req w. split_and!.
    + apply fresh_None.
    + apply context_loc_fresh.
    + rewrite start_world.
      rewrite lookup_insert_ne by (apply not_eq_sym, scratch_context_ne).
      apply lookup_insert_eq.
    + rewrite start_world. apply lookup_insert_eq.
    + by rewrite start_frame.
    + apply start_extends.
  - intros w0 w ts i j di dj ti tj Hrtc Hi Hj Hij.
    assert (pool_inv (w, ts)) as [Hnd Hdom].
    { eapply pool_inv_rtc; [|done]. split; simpl; [apply NoDup_nil_2|].
      intros d Hd. by apply elem_of_nil in Hd. }
    simpl in Hnd, Hdom.
    assert (ts.*1 !! i = Some di) as Hi' by by rewrite list_lookup_fmap, Hi.
    assert (ts.*1 !! j = Some dj) as Hj' by by rewrite list_lookup_fmap, Hj.
    assert (di ≠ dj) as Hne.
    { intros ->. apply Hij. by eapply NoDup_lookup. }
    split_and!; [done|eapply Hdom, list_elem_of_lookup_2, Hi'
                |eapply Hdom, list_elem_of_lookup_2, Hj'|].
    intros k v.
    assert (set_prop (VRef di) k v w !! dj = w !! dj) as Hcell
      by (apply set_prop_lookup_ne; congruence).
    split; [done|]. intros k'. unfold get_prop, object_of. by rewrite Hcell.
Qed.

(** Two requests on the example host, the second arriving before the
    first has come to its second middleware, their turns interleaved. *)
Lemma scratch_is_per_request_witness :
  ∃ w ts,
    rtc (pool_step (E := Demo.env)) (App.use Demo.app 3 Demo.world, []) (w, ts)
    ∧ length ts = 2
    ∧ ∀ i j di dj ti tj,
        ts !! i = Some (di, ti) → ts !! j = Some (dj, tj) → i ≠ j → di ≠ dj.
Proof.
  destruct (scratch_is_per_request (E := Demo.env) (Henc := Demo_encapsulated))
    as [_ Hpool].
  eassert (rtc (pool_step (E := Demo.env)) (App.use Demo.app 3 Demo.world, []) (_, _))
    as Hrun.
  { eapply rtc_l.
    { eapply (pool_arrive _ [] Demo.app (Demo.request "GET" "http://localhost/")).
      vm_compute. reflexivity. }
    eapply rtc_l.
    { eapply (pool_arrive _ _ Demo.app (Demo.request "GET" "http://localhost/missing")).
      vm_compute. reflexivity. }
    eapply rtc_l.
    { eapply (pool_turn _ _ 1); [reflexivity|]. vm_compute. reflexivity. }
    eapply rtc_l.
    { eapply (pool_turn _ _ 0); [reflexivity|]. vm_compute. reflexivity. }
    apply rtc_refl. }
  eexists _, _. split_and!; [exact Hrun|reflexivity|].
  intros i j di dj ti tj Hi Hj Hij.
  by destruct (Hpool _ _ _ i j di dj ti tj Hrun Hi Hj Hij) as [Hne _].
Defined.





(** * More of the class

    ** The setup phase against its description as data *)

Section setup_facts.
Implicit Types (w : World) (this : loc) (op : public_op) (ops : list public_op)
  (path method : string) (h : Handler).

Lemma pipeline_addRoute this method path h w :
  wf_app w this → pipeline (App.addRoute this method path h w) this = pipeline w this.
Proof.
  intros Hwf. unfold pipeline. by rewrite addRoute_app_of, addRoute_array.
Qed.

Lemma public_wf this op w : wf_app w this → wf_app (public this op w) this.
Proof.
  intros Hwf. destruct op; simpl;
    unfold App.get, App.post, App.put, App.delete;
    auto using use_wf, addRoute_wf_this, all_wf.
Qed.

Lemma lookup_public this op w path method :
  wf_app w this →
  lookup_handler (public this op w) this path method
  = match binds op path method with
    | Some h => Some h
    | None => lookup_handler w this path method
    end.
Proof.
  intros Hwf. destruct op as [mw|p h|p h|p h|p h|p h]; simpl;
    unfold App.get, App.post, App.put, App.delete;
    rewrite ?lookup_use, ?lookup_addRoute_this, ?lookup_all by done;
    try done; by case_decide.
Qed.

Lemma pipeline_public this op w :
  wf_app w this →
  pipeline (public this op w) this
  = pipeline w this ++ match op with PUse mw => [mw] | _ => [] end.
Proof.
  intros Hwf. destruct op as [mw|p h|p h|p h|p h|p h]; simpl;
    unfold App.get, App.post, App.put, App.delete, App.all;
    rewrite ?app_nil_r.
  - by apply pipeline_use.
  - by apply pipeline_addRoute.
  - by apply pipeline_addRoute.
  - by apply pipeline_addRoute.
  - by apply pipeline_addRoute.
  - rewrite !pipeline_addRoute; eauto using addRoute_wf_this.
Qed.

Lemma setup_snoc this ops op w :
  setup this (ops ++ [op]) w = public this op (setup this ops w).
Proof. unfold setup. by rewrite foldl_app. Qed.

Lemma last_binding_snoc ops op path method :
  last_binding (ops ++ [op]) path method
  = match binds op path method with
    | Some h => Some h
    | None => last_binding ops path method
    end.
Proof. unfold last_binding. by rewrite foldl_app. Qed.

Lemma setup_wf this ops w : wf_app w this → wf_app (setup this ops w) this.
Proof.
  intros Hwf. induction ops as [|op ops IH] using rev_ind; [done|].
  rewrite setup_snoc. by apply public_wf.
Qed.

Lemma lookup_setup this ops w path method :
  wf_app w this →
  lookup_handler (setup this ops w) this path method
  = match last_binding ops path method with
    | Some h => Some h
    | None => lookup_handler w this path method
    end.
Proof.
  intros Hwf. induction ops as [|op ops IH] using rev_ind; [done|].
  rewrite setup_snoc, last_binding_snoc, lookup_public by by apply setup_wf.
  by destruct (binds op path method).
Qed.

Lemma new_lookup_empty w path method :
  lookup_handler (App.new w).2 (App.new w).1 path method = None.
Proof.
  destruct (new_cell w) as (r & arr & s & Hn & Hr & _).
  destruct (App.new w) as [n w']; simpl in *. unfold lookup_handler.
  rewrite (app_of_Some _ _ _ Hn); simpl.
  by rewrite (outer_of_Some _ _ _ Hr), lookup_empty.
Qed.

Lemma new_pipeline_empty w : pipeline (App.new w).2 (App.new w).1 = [].
Proof.
  destruct (new_cell w) as (r & arr & s & Hn & _ & Ha & _).
  destruct (App.new w) as [n w']; simpl in *. unfold pipeline.
  rewrite (app_of_Some _ _ _ Hn); simpl. by rewrite (array_of_Some _ _ _ Ha).
Qed.

End setup_facts.

(** X3.  The registry the calls leave is the one their list describes:
    after any list of [use], [get], [post], [put], [delete] and [all] on an
    instance, the lookup of a pair gives the handler of the last call that
    binds the pair, and what it gave before when no call binds it.  The
    instance stays well-formed, and a pair that had a handler has one
    afterwards: nothing is ever unregistered. *)
Theorem registry_is_last_binding (this : loc) (ops : list public_op) (w : World)
    (path method : string) :
  wf_app w this →
  wf_app (setup this ops w) this
  ∧ lookup_handler (setup this ops w) this path method
    = match last_binding ops path method with
      | Some h => Some h
      | None => lookup_handler w this path method
      end
  ∧ (is_Some (lookup_handler w this path method) →
     is_Some (lookup_handler (setup this ops w) this path method)).
Proof.
  intros Hwf. pose proof (lookup_setup this ops w path method Hwf) as Hlk.
  split_and!; [by apply setup_wf|done|].
  rewrite Hlk. by destruct (last_binding ops path method).
Qed.

(** On the example host: [get] after [all] takes [GET] over and leaves the
    other methods; a pair no call binds keeps its handler. *)
Lemma registry_is_last_binding_witness :
  lookup_handler (setup Demo.app [PAll "/x" 11; PUse 4; PGet "/x" 12] Demo.world)
    Demo.app "/x" "GET" = Some 12%positive
  ∧ lookup_handler (setup Demo.app [PAll "/x" 11; PUse 4; PGet "/x" 12] Demo.world)
      Demo.app "/x" "PUT" = Some 11%positive
  ∧ lookup_handler (setup Demo.app [PAll "/x" 11; PUse 4; PGet "/x" 12] Demo.world)
      Demo.app "/" "GET" = Some 10%positive.
Proof.
  split_and!.
  - destruct (registry_is_last_binding Demo.app [PAll "/x" 11; PUse 4; PGet "/x" 12]
                Demo.world "/x" "GET" Demo_world_wf) as (_ & -> & _).
    vm_compute. reflexivity.
  - destruct (registry_is_last_binding Demo.app [PAll "/x" 11; PUse 4; PGet "/x" 12]
                Demo.world "/x" "PUT" Demo_world_wf) as (_ & -> & _).
    vm_compute. reflexivity.
  - destruct (registry_is_last_binding Demo.app [PAll "/x" 11; PUse 4; PGet "/x" 12]
                Demo.world "/" "GET" Demo_world_wf) as (_ & -> & _).
    vm_compute. reflexivity.
Defined.

(** X4.  The pipeline the calls leave is the pipeline there was followed
    by the middleware of the [use] calls, in the order of the calls and
    with repetitions kept; the other calls do not touch it. *)
Theorem pipeline_is_uses_in_order (this : loc) (ops : list public_op) (w : World) :
  wf_app w this →
  pipeline (setup this ops w) this = pipeline w this ++ used ops.
Proof.
  intros Hwf. induction ops as [|op ops IH] using rev_ind.
  - by rewrite app_nil_r.
  - rewrite setup_snoc, pipeline_public, IH by by apply setup_wf.
    unfold used. rewrite omap_app, <-app_assoc. by destruct op.
Qed.

(** On the example host, whose pipeline is [[1]]. *)
Lemma pipeline_is_uses_in_order_witness :
  pipeline (setup Demo.app [PUse 3; PGet "/x" 11; PUse 1; PUse 3] Demo.world) Demo.app
  = pipeline Demo.world Demo.app ++ [3; 1; 3]%positive.
Proof.
  exact (pipeline_is_uses_in_order Demo.app [PUse 3; PGet "/x" 11; PUse 1; PUse 3]
           Demo.world Demo_world_wf).
Defined.

(** ** The constructor *)

(** X1.  [new App()] gives an instance that was not in the store, with a
    registry in which no pair has a handler, an empty pipeline and a state
    that is a new object without properties; the instance is well-formed
    and no cell that was in the store is changed. *)
Theorem new_app_is_empty (w : World) :
  w !! (App.new w).1 = None
  ∧ wf_app (App.new w).2 (App.new w).1
  ∧ (∀ path method, lookup_handler (App.new w).2 (App.new w).1 path method = None)
  ∧ pipeline (App.new w).2 (App.new w).1 = []
  ∧ (∃ s, state (app_of (App.new w).2 (App.new w).1) = VRef s
          ∧ w !! s = None
          ∧ (App.new w).2 !! s = Some (CObject ∅))
  ∧ extends w (App.new w).2.
Proof.
  pose proof (new_lookup_empty w) as Hempty.
  pose proof (new_pipeline_empty w) as Hpipe.
  destruct (new_cell w) as (r & arr & s & Hn & Hr & Ha & Hs & _ & _ & Hs' & Hfresh).
  pose proof (new_wf w) as Hwf. pose proof (new_extends w) as Hext.
  destruct (App.new w) as [n w']; simpl in *.
  split_and!; try done.
  exists s. by rewrite (app_of_Some _ _ _ Hn).
Qed.

(** ** Registering again *)

(** X5.  Registering for a pair the handler it already has changes nothing
    in the store; so registering the same triple twice leaves the store
    that registering it once leaves. *)
Theorem reregistering_same_handler_is_noop
    (this : loc) (method path : string) (h : Handler) (w : World) :
  wf_app w this →
  (lookup_handler w this path method = Some h →
   App.addRoute this method path h w = w)
  ∧ App.addRoute this method path h (App.addRoute this method path h w)
    = App.addRoute this method path h w.
Proof.
  intros Hwf.
  assert (∀ w0, wf_app w0 this → lookup_handler w0 this path method = Some h →
                App.addRoute this method path h w0 = w0) as Hnoop.
  { intros w0 Hwf0 Hlk. unfold lookup_handler in Hlk.
    destruct (outer_of w0 (routes (app_of w0 this)) !! path) as [l|] eqn:Hl; [|done].
    rewrite (addRoute_old _ _ _ _ _ _ Hl).
    destruct (wf_inner _ _ Hwf0 _ _ Hl) as [im Him].
    rewrite (inner_of_Some _ _ _ Him) in Hlk |- *.
    rewrite (insert_id im) by done. by apply insert_id. }
  split; [by apply Hnoop|].
  apply Hnoop; [by apply addRoute_wf_this|].
  rewrite lookup_addRoute_this by done. by rewrite decide_True.
Qed.

(** On the example host, where [GET /] has handler [10]. *)
Lemma reregistering_same_handler_is_noop_witness :
  App.addRoute Demo.app "GET" "/" 10 Demo.world = Demo.world.
Proof.
  destruct (reregistering_same_handler_is_noop Demo.app "GET" "/" 10 Demo.world
              Demo_world_wf) as [Hnoop _].
  apply Hnoop. vm_compute. reflexivity.
Defined.

(** ** What the public methods can register *)

Lemma binds_method (op : public_op) (path method : string) (h : Handler) :
  binds op path method = Some h → method ∈ all_methods.
Proof.
  unfold all_methods. destruct op; simpl; [done|..];
    case_decide as Hd; try done; destruct Hd as [_ Hm]; subst; intros _;
    first [done | set_solver].
Qed.

Lemma last_binding_method (ops : list public_op) (path method : string) (h : Handler) :
  last_binding ops path method = Some h → method ∈ all_methods.
Proof.
  induction ops as [|op ops IH] using rev_ind; [done|].
  rewrite last_binding_snoc.
  destruct (binds op path method) as [h'|] eqn:Hb; [|done].
  intros _. by eapply binds_method.
Qed.

(** X6.  The public methods register under [GET], [POST], [PUT] and
    [DELETE] only.  Whatever calls are made on an instance from its
    construction on, a pair with a handler has one of these four methods,
    and the lookup of [fetch] for a request with any other method ([HEAD],
    [PATCH], [OPTIONS], a method in lower case) ends in the 404 response
    without calling a handler. *)
Theorem only_four_methods `{E : Env MwK HK} (w0 : World) (ops : list public_op) :
  (∀ path method h,
     lookup_handler (setup (App.new w0).1 ops (App.new w0).2) (App.new w0).1 path method
     = Some h →
     method ∈ all_methods)
  ∧ (∀ (f : frame) (url : URL),
       f_this f = (App.new w0).1 →
       URL_parse (req_url (f_req f)) = Some url →
       req_method (f_req f) ∉ all_methods →
       route f (setup (App.new w0).1 ops (App.new w0).2)
       = (setup (App.new w0).1 ops (App.new w0).2, Resolved notFound, [])).
Proof.
  pose proof (new_wf w0) as Hwf.
  assert (∀ path method h,
     lookup_handler (setup (App.new w0).1 ops (App.new w0).2) (App.new w0).1 path method
     = Some h →
     method ∈ all_methods) as Hfour.
  { intros path method h.
    rewrite lookup_setup, new_lookup_empty by done. destruct (last_binding ops path method) as [h'|] eqn:Hl; [|done].
    intros _. by eapply last_binding_method. }
  split; [done|]. intros f url Hthis Hurl Hm.
  rewrite (route_lookup f _ url Hurl), Hthis.
  destruct (lookup_handler _ _ _ _) as [h|] eqn:Hl; [|done].
  by apply Hfour in Hl.
Qed.

(** On the example host: after [all("/x", 11)] on a new instance, the
    lookup for [PATCH /x] ends in the 404 response. *)
Lemma only_four_methods_witness :
  route (E := Demo.env)
    {| f_this := (App.new ∅).1; f_req := Demo.request "PATCH" "http://localhost/x";
       f_c := 9; f_mws := 2 |}
    (setup (App.new ∅).1 [PAll "/x" 11] (App.new ∅).2)
  = (setup (App.new ∅).1 [PAll "/x" 11] (App.new ∅).2, Resolved notFound, []).
Proof.
  destruct (only_four_methods (E := Demo.env) ∅ [PAll "/x" 11]) as [_ H].
  apply (H _ {| pathname := "/x"; search := EmptyString; hash := EmptyString |}).
  - reflexivity.
  - vm_compute. reflexivity.
  - apply (bool_decide_unpack _). vm_compute. reflexivity.
Defined.

(** ** Instances that do not share *)

Section isolation.
Implicit Types (w : World) (a b this : loc) (op : public_op)
  (path method : string) (h : Handler).

(** A registration writes the outer map of its instance, the map of the
    path, and at most one new cell. *)
Lemma addRoute_cell_other this method path h w (x : loc) (y : cell) :
  wf_app w this → w !! x = Some y →
  x ≠ routes (app_of w this) →
  (∀ p, outer_of w (routes (app_of w this)) !! p ≠ Some x) →
  App.addRoute this method path h w !! x = Some y.
Proof.
  intros [_ [om Er] _ _ _] Hx Hr Hin.
  destruct (outer_of w (routes (app_of w this)) !! path) as [l|] eqn:E.
  - rewrite (addRoute_old _ _ _ _ _ _ E).
    rewrite lookup_insert_ne; [done|]. intros ->. by apply Hin in E.
  - rewrite (outer_of_Some _ _ _ Er) in E.
    rewrite (addRoute_new _ _ _ _ _ _ Er E).
    pose proof (fresh_ne _ _ _ Hx).
    by rewrite !lookup_insert_ne by congruence.
Qed.

Lemma addRoute_outer_range this method path h w (p : string) (l : loc) :
  wf_app w this →
  outer_of (App.addRoute this method path h w) (routes (app_of w this)) !! p = Some l →
  outer_of w (routes (app_of w this)) !! p = Some l ∨ w !! l = None.
Proof.
  intros [_ [om Er] Hin _ _].
  destruct (outer_of w (routes (app_of w this)) !! path) as [l0|] eqn:E.
  - rewrite (addRoute_old _ _ _ _ _ _ E).
    destruct (Hin _ _ E) as [im Him].
    rewrite outer_of_insert_ne by congruence. auto.
  - rewrite (outer_of_Some _ _ _ Er) in E.
    rewrite (addRoute_new _ _ _ _ _ _ Er E).
    pose proof (fresh_ne _ _ _ Er).
    rewrite outer_of_insert_ne by congruence.
    unfold outer_of at 1. rewrite lookup_insert_eq, lookup_insert.
    case_decide; [intros [= <-]; right; apply fresh_None|].
    rewrite (outer_of_Some _ _ _ Er). auto.
Qed.

(** What an instance shows depends on the cells it owns only. *)
Lemma owned_frame w (w' : World) a :
  wf_app w a →
  (∀ x y, owns w a x → w !! x = Some y → w' !! x = Some y) →
  wf_app w' a
  ∧ app_of w' a = app_of w a
  ∧ outer_of w' (routes (app_of w a)) = outer_of w (routes (app_of w a))
  ∧ (∀ path method, lookup_handler w' a path method = lookup_handler w a path method)
  ∧ pipeline w' a = pipeline w a.
Proof.
  intros [[ca Ha] [om Er] Hin Hinj [xs Hxs]] Hkeep.
  assert (w' !! a = Some (CApp ca)) as Ha' by (apply Hkeep; [by left|done]).
  assert (app_of w' a = app_of w a) as Happ
    by by rewrite (app_of_Some _ _ _ Ha), (app_of_Some _ _ _ Ha').
  assert (w' !! routes (app_of w a) = Some (COuterMap om)) as Er'
    by (apply Hkeep; [right; by left|done]).
  assert (w' !! middlewares (app_of w a) = Some (CArray xs)) as Hxs'
    by (apply Hkeep; [right; right; by left|done]).
  assert (∀ p l, om !! p = Some l → ∃ im, w !! l = Some (CInnerMap im)
                                          ∧ w' !! l = Some (CInnerMap im)) as Hin'.
  { intros p l Hp. rewrite (outer_of_Some _ _ _ Er) in Hin.
    destruct (Hin _ _ Hp) as [im Him]. exists im. split; [done|].
    apply Hkeep; [|done]. right; right; right. exists p.
    by rewrite (outer_of_Some _ _ _ Er). }
  rewrite (outer_of_Some _ _ _ Er) in Hinj.
  split_and!.
  - split; rewrite ?Happ, ?(outer_of_Some _ _ _ Er'); eauto.
    intros p l Hp. destruct (Hin' _ _ Hp) as (im & _ & ?). eauto.
  - done.
  - by rewrite (outer_of_Some _ _ _ Er), (outer_of_Some _ _ _ Er').
  - intros path method. unfold lookup_handler. rewrite Happ.
    rewrite (outer_of_Some _ _ _ Er), (outer_of_Some _ _ _ Er').
    destruct (om !! path) as [l|] eqn:Hl; [|done].
    destruct (Hin' _ _ Hl) as (im & Him & Him').
    by rewrite (inner_of_Some _ _ _ Him), (inner_of_Some _ _ _ Him').
  - unfold pipeline. rewrite Happ.
    by rewrite (array_of_Some _ _ _ Hxs), (array_of_Some _ _ _ Hxs').
Qed.

(** Two well-formed instances with disjoint containers. *)
Lemma apart_sym w a b :
  wf_app w a ∧ wf_app w b ∧ disjoint_apps w a b →
  wf_app w b ∧ wf_app w a ∧ disjoint_apps w b a.
Proof.
  intros (Ha & Hb & Hr & Hm & Hin). unfold disjoint_apps.
  split_and!; [done|done|congruence|congruence|].
  intros p p' l Hp Hp'. by apply (Hin p' p l).
Qed.

(** A cell owned by [a] is not one a registration through [b] writes. *)
Lemma owned_not_written w a b (x : loc) :
  wf_app w a → wf_app w b → disjoint_apps w a b → owns w a x →
  x ≠ routes (app_of w b)
  ∧ x ≠ middlewares (app_of w b)
  ∧ ∀ p, outer_of w (routes (app_of w b)) !! p ≠ Some x.
Proof.
  intros [[ca Ha] [oma Era] Hina _ [xsa Hxa]] [[cb Hb] [omb Erb] Hinb _ [xsb Hxb]]
    (Hr & Hm & Hdis) Hown.
  assert (∀ p l, outer_of w (routes (app_of w b)) !! p = Some l →
                 ∃ im, w !! l = Some (CInnerMap im)) as Hinb' by done.
  destruct Hown as [->|[->|[->|[p Hp]]]].
  - split_and!; [congruence|congruence|].
    intros p Hp. destruct (Hinb' _ _ Hp) as [im Him]. congruence.
  - split_and!; [done|congruence|].
    intros p Hp. destruct (Hinb' _ _ Hp) as [im Him]. congruence.
  - split_and!; [congruence|done|].
    intros p Hp. destruct (Hinb' _ _ Hp) as [im Him]. congruence.
  - destruct (Hina _ _ Hp) as [im Him].
    split_and!; [congruence|congruence|]. intros p'. by apply Hdis with p.
Qed.

Lemma addRoute_apart w a b method path h :
  wf_app w a ∧ wf_app w b ∧ disjoint_apps w a b →
  (wf_app (App.addRoute b method path h w) a
   ∧ wf_app (App.addRoute b method path h w) b
   ∧ disjoint_apps (App.addRoute b method path h w) a b)
  ∧ (∀ path' method',
       lookup_handler (App.addRoute b method path h w) a path' method'
       = lookup_handler w a path' method')
  ∧ pipeline (App.addRoute b method path h w) a = pipeline w a.
Proof.
  intros (Ha & Hb & Hdis).
  destruct (owned_frame w (App.addRoute b method path h w) a Ha)
    as (Ha' & Happ & Hout & Hlk & Hpl).
  { intros x y Hown Hx.
    destruct (owned_not_written w a b x Ha Hb Hdis Hown) as (? & _ & ?).
    by apply addRoute_cell_other. }
  split_and!; try done; [by apply addRoute_wf_this|].
  destruct Hdis as (Hr & Hm & Hin).
  pose proof (addRoute_app_of b method path h w b Hb Hb) as Happb.
  split_and!; rewrite ?Happ, ?Happb, ?Hout; try done.
  intros p p' l Hp Hp'.
  destruct (addRoute_outer_range _ _ _ _ _ _ _ Hb Hp') as [Hold|Hnew].
  - by apply (Hin p p' l).
  - destruct (wf_inner _ _ Ha _ _ Hp) as [im Him]. congruence.
Qed.

Lemma use_apart w a b mw :
  wf_app w a ∧ wf_app w b ∧ disjoint_apps w a b →
  (wf_app (App.use b mw w) a ∧ wf_app (App.use b mw w) b
   ∧ disjoint_apps (App.use b mw w) a b)
  ∧ (∀ path' method',
       lookup_handler (App.use b mw w) a path' method' = lookup_handler w a path' method')
  ∧ pipeline (App.use b mw w) a = pipeline w a.
Proof.
  intros (Ha & Hb & Hdis).
  destruct (owned_frame w (App.use b mw w) a Ha) as (Ha' & Happ & Hout & Hlk & Hpl).
  { intros x y Hown Hx.
    destruct (owned_not_written w a b x Ha Hb Hdis Hown) as (_ & Hne & _).
    destruct (wf_mws _ _ Hb) as [xs Hxs]. rewrite (use_spec _ _ _ _ Hxs).
    by rewrite lookup_insert_ne. }
  split_and!; try done; [by apply use_wf|].
  destruct Hdis as (Hr & Hm & Hin).
  split_and!; rewrite ?use_app, ?use_outer by done; done.
Qed.

Lemma public_apart w a b op :
  wf_app w a ∧ wf_app w b ∧ disjoint_apps w a b →
  (wf_app (public b op w) a ∧ wf_app (public b op w) b
   ∧ disjoint_apps (public b op w) a b)
  ∧ (∀ path' method',
       lookup_handler (public b op w) a path' method' = lookup_handler w a path' method')
  ∧ pipeline (public b op w) a = pipeline w a.
Proof.
  intros Hap. destruct op as [mw|p h|p h|p h|p h|p h]; simpl;
    unfold App.get, App.post, App.put, App.delete;
    try (by apply addRoute_apart); [by apply use_apart|].
  unfold App.all. cbv zeta.
  destruct (addRoute_apart w a b "GET" p h Hap) as (H1 & L1 & P1).
  destruct (addRoute_apart _ a b "POST" p h H1) as (H2 & L2 & P2).
  destruct (addRoute_apart _ a b "PUT" p h H2) as (H3 & L3 & P3).
  destruct (addRoute_apart _ a b "DELETE" p h H3) as (H4 & L4 & P4).
  split; [exact H4|split; [|congruence]].
  intros path' method'. by rewrite L4, L3, L2, L1.
Qed.

Lemma setup_each_snoc (ops : list (loc * public_op)) (o : loc * public_op) w :
  setup_each (ops ++ [o]) w = public o.1 o.2 (setup_each ops w).
Proof. unfold setup_each. by rewrite foldl_app. Qed.

Lemma own_ops_snoc a (ops : list (loc * public_op)) (o : loc * public_op) :
  own_ops a (ops ++ [o]) = own_ops a ops ++ (if decide (o.1 = a) then [o.2] else []).
Proof. unfold own_ops. rewrite omap_app. simpl. by case_decide. Qed.

Lemma setup_each_apart w a b (ops : list (loc * public_op)) :
  wf_app w a ∧ wf_app w b ∧ disjoint_apps w a b →
  Forall (λ o, o.1 = a ∨ o.1 = b) ops →
  (wf_app (setup_each ops w) a ∧ wf_app (setup_each ops w) b
   ∧ disjoint_apps (setup_each ops w) a b)
  ∧ (∀ path method,
       lookup_handler (setup_each ops w) a path method
       = match last_binding (own_ops a ops) path method with
         | Some h => Some h
         | None => lookup_handler w a path method
         end)
  ∧ pipeline (setup_each ops w) a = pipeline w a ++ used (own_ops a ops).
Proof.
  intros Hap. induction ops as [|[t op] ops IH] using rev_ind; intros Hops.
  - split; [exact Hap|split; [done|by rewrite app_nil_r]].
  - apply Forall_app in Hops as [Hops Ho]. apply Forall_inv in Ho. simpl in Ho.
    destruct (IH Hops) as (Hap' & Hlk & Hpl). clear IH.
    rewrite setup_each_snoc, own_ops_snoc. simpl.
    assert (a ≠ b) as Hab.
    { intros ->. by destruct Hap as (_ & _ & Hr & _). }
    destruct Ho as [->| ->].
    + rewrite decide_True by done.
      destruct (public_apart _ b a op (apart_sym _ _ _ Hap')) as (Hap'' & _ & _).
      split; [by apply apart_sym|split].
      * intros path method.
        rewrite lookup_public, last_binding_snoc, Hlk by apply Hap'.
        by destruct (binds op path method).
      * rewrite pipeline_public, Hpl by apply Hap'.
        unfold used. rewrite omap_app, <-app_assoc. by destruct op.
    + rewrite decide_False by done. rewrite app_nil_r.
      destruct (public_apart _ a b op Hap') as (Hap'' & Hlk' & Hpl').
      split; [exact Hap''|split; [|by rewrite Hpl']].
      intros path method. by rewrite Hlk'.
Qed.

Lemma new_apart w a :
  wf_app w a →
  wf_app (App.new w).2 a ∧ wf_app (App.new w).2 (App.new w).1
  ∧ disjoint_apps (App.new w).2 a (App.new w).1.
Proof.
  intros Ha. pose proof (new_extends w) as Hext. pose proof (new_wf w) as Hb.
  destruct (new_cell w) as (r & arr & s & Hn & Hr & Harr & _ & Hr0 & Harr0 & _ & Hn0).
  destruct (App.new w) as [n w']; simpl in *.
  pose proof (wf_app_extends _ _ _ Ha Hext) as Ha'.
  split_and!; [done|done|].
  destruct Ha as [[ca Hca] [om Er] _ _ [xs Hxs]]. unfold disjoint_apps.
  rewrite (app_of_Some _ _ _ (Hext _ _ Hca)), (app_of_Some _ _ _ Hn).
  rewrite (app_of_Some _ _ _ Hca) in Er, Hxs. simpl.
  split_and!; [congruence|congruence|].
  intros p p' l _. by rewrite (outer_of_Some _ _ _ Hr), lookup_empty.
Qed.

End isolation.

(** X2.  Two instances each made by [new App()] share nothing.  However
    the calls of [use], [get], [post], [put], [delete] and [all] on the two
    are interleaved, the registry and the pipeline of each are those its
    own calls describe: what is registered on one is never found through
    the other. *)
Theorem new_instances_are_isolated
    (a : loc) (w : World) (ops : list (loc * public_op)) :
  wf_app w a →
  Forall (λ o, o.1 = a ∨ o.1 = (App.new w).1) ops →
  (∀ path method,
     lookup_handler (setup_each ops (App.new w).2) a path method
     = match last_binding (own_ops a ops) path method with
       | Some h => Some h
       | None => lookup_handler w a path method
       end)
  ∧ pipeline (setup_each ops (App.new w).2) a = pipeline w a ++ used (own_ops a ops)
  ∧ (∀ path method,
       lookup_handler (setup_each ops (App.new w).2) (App.new w).1 path method
       = last_binding (own_ops (App.new w).1 ops) path method)
  ∧ pipeline (setup_each ops (App.new w).2) (App.new w).1
    = used (own_ops (App.new w).1 ops).
Proof.
  intros Ha Hops. pose proof (new_apart w a Ha) as Hap.
  destruct (setup_each_apart _ _ _ ops Hap Hops) as (_ & Hlka & Hpla).
  destruct (setup_each_apart _ _ _ ops (apart_sym _ _ _ Hap)) as (_ & Hlkb & Hplb).
  { eapply Forall_impl; [exact Hops|]. simpl. intros o [?|?]; auto. }
  pose proof (new_extends w) as Hext.
  split_and!.
  - intros path method. rewrite Hlka. by rewrite (lookup_handler_extends w).
  - by rewrite Hpla, (pipeline_extends w).
  - intros path method. rewrite Hlkb, new_lookup_empty.
    by destruct (last_binding _ _ _).
  - by rewrite Hplb, new_pipeline_empty.
Qed.

(** On the example host: a second instance is made beside the example
    application; a route registered on the second is not found through the
    first, and [use] on the first leaves the second's pipeline empty. *)
Lemma new_instances_are_isolated_witness :
  lookup_handler
    (setup_each [((App.new Demo.world).1, PGet "/b" 11); (Demo.app, PUse 2)]
       (App.new Demo.world).2) Demo.app "/b" "GET" = None
  ∧ lookup_handler
      (setup_each [((App.new Demo.world).1, PGet "/b" 11); (Demo.app, PUse 2)]
         (App.new Demo.world).2) (App.new Demo.world).1 "/b" "GET" = Some 11%positive
  ∧ pipeline
      (setup_each [((App.new Demo.world).1, PGet "/b" 11); (Demo.app, PUse 2)]
         (App.new Demo.world).2) (App.new Demo.world).1 = [].
Proof.
  destruct (new_instances_are_isolated Demo.app Demo.world
              [((App.new Demo.world).1, PGet "/b" 11); (Demo.app, PUse 2)]
              Demo_world_wf) as (H1 & _ & H3 & H4).
  { apply Forall_cons_2; [right; reflexivity|].
    apply Forall_cons_2; [left; reflexivity|]. apply Forall_nil_2. }
  split_and!.
  - rewrite H1. vm_compute. reflexivity.
  - rewrite H3. vm_compute. reflexivity.
  - rewrite H4. vm_compute. reflexivity.
Defined.

(** ** What a dispatch writes *)

Section quiet_facts.
Context `{E : Env MwK HK}.
Implicit Types (w : World) (f : frame) (t : task MwK HK) (log : list event).

Lemma route_quiet f w : quiet → (route f w).1.1 = w.
Proof.
  intros (_ & _ & Hh & _). unfold route.
  destruct (URL_parse _); [|done]. simpl.
  destruct (outer_of w _ !! _) as [l|]; [|done].
  case_bool_decide; [|done].
  destruct (inner_of w l !! _) as [h|]; [|done].
  specialize (Hh h (f_c f) w). by destruct (h_call h (f_c f) w).
Qed.

Lemma resume_quiet t w : quiet → (resume t w).1.1 = w.
Proof.
  intros Hq. pose proof Hq as (Hm & Hmr & _ & Hhr). destruct t as [f i|f i mw k|k|r|r|e]; simpl.
  - unfold for_of. destruct (array_of w (f_mws f) !! i) as [mw|]; [|by apply route_quiet].
    specialize (Hm mw (f_c f) w). destruct (mw_call mw (f_c f) w) as [w' s].
    by destruct (after_mw f i mw s).
  - specialize (Hmr k w). destruct (mw_resume k w) as [w' s].
    by destruct (after_mw f i mw s).
  - specialize (Hhr k w). by destruct (h_resume k w).
  - done.
  - done.
  - done.
Qed.

Lemma turns_quiet n w t log : quiet → (turns n (w, t, log)).1.1 = w.
Proof.
  intros Hq. revert w t log. induction n as [|n IH]; intros w t log; [done|].
  simpl. pose proof (resume_quiet t w Hq) as Hr.
  destruct (resume t w) as [[w' t'] evs]. simpl in Hr. subst w'. apply IH.
Qed.

End quiet_facts.

Lemma Quiet_env_quiet : quiet (E := Quiet.env).
Proof.
  split_and!; try done.
  - intros mw c w. simpl. unfold Quiet.mw_call.
    by repeat (destruct mw as [mw|mw|]; try done).
  - intros h c w. simpl. unfold Demo.h_call.
    by repeat (destruct h as [h|h|]; try done).
Qed.

(** X8.  When no function of the host writes to the store, a dispatch
    leaves, at its call and after any number of turns, the store it found
    with two objects added: the empty scratch object and the context that
    holds the request, the scratch and the state of the instance.  Every
    object there was is as it was, so every registry and every pipeline
    reads as before: [fetch] itself registers nothing and changes no
    instance. *)
Theorem fetch_writes_only_its_context `{E : Env MwK HK}
    (this : loc) (req : Request) (w : World) (n : nat) :
  quiet →
  (run n this req w).1.1
  = <[context_loc w := CContext {| Context.req := req;
                                   Context.data := VRef (scratch_loc w);
                                   Context.state := state (app_of w this) |}]>
      (<[scratch_loc w := CObject ∅]> w)
  ∧ (fetch this req w).1.1 = (run n this req w).1.1
  ∧ w !! scratch_loc w = None ∧ w !! context_loc w = None
  ∧ extends w (run n this req w).1.1
  ∧ (∀ a path method,
       lookup_handler (run n this req w).1.1 a path method
       = lookup_handler w a path method)
  ∧ (∀ a, pipeline (run n this req w).1.1 a = pipeline w a).
Proof.
  intros Hq.
  assert ((run n this req w).1.1 = (start this req w).1) as Hrun.
  { unfold run. destruct (start this req w) as [w1 f]. by apply turns_quiet. }
  assert ((fetch this req w).1.1 = (start this req w).1) as Hfetch.
  { unfold fetch. destruct (start this req w) as [w1 f].
    apply (resume_quiet (Resume f 0) w1 Hq). }
  rewrite Hfetch, Hrun. split_and!.
  - apply start_world.
  - done.
  - apply fresh_None.
  - apply context_loc_fresh.
  - apply start_extends.
  - intros a path method. apply lookup_handler_start.
  - intros a. unfold pipeline. by rewrite app_of_start, start_array.
Qed.

(** On the host whose middleware only wait or return: two turns after a
    request for [/] the registry and the pipeline of the example
    application read as before the request. *)
Lemma fetch_writes_only_its_context_witness :
  lookup_handler
    (run (E := Quiet.env) 2 Demo.app (Demo.request "GET" "http://localhost/")
       Demo.world).1.1 Demo.app "/" "GET" = Some 10%positive
  ∧ pipeline
      (run (E := Quiet.env) 2 Demo.app (Demo.request "GET" "http://localhost/")
         Demo.world).1.1 Demo.app = [1%positive].
Proof.
  destruct (fetch_writes_only_its_context (E := Quiet.env) Demo.app
              (Demo.request "GET" "http://localhost/") Demo.world 2 Quiet_env_quiet)
    as (_ & _ & _ & _ & _ & Hl & Hp).
  split.
  - rewrite Hl. vm_compute. reflexivity.
  - rewrite Hp. vm_compute. reflexivity.
Defined.

(** ** The call itself *)

Section call.
Context `{E : Env MwK HK}.
Implicit Types (w : World) (f : frame) (t : task MwK HK) (log : list event).

(** The call [fetch] is the first turn of the loop on the frame and the
    store [start] leaves. *)
Lemma fetch_start this req w :
  fetch this req w = for_of (start this req w).2 0 (start this req w).1.
Proof. unfold fetch. by destruct (start this req w). Qed.

Lemma start_pipeline this req w :
  array_of (start this req w).1 (f_mws (start this req w).2) = pipeline w this.
Proof. by rewrite start_array, start_frame. Qed.

Lemma start_this this req w : f_this (start this req w).2 = this.
Proof. by rewrite start_frame. Qed.

Lemma start_req this req w : f_req (start this req w).2 = req.
Proof. by rewrite start_frame. Qed.

Lemma start_c this req w : f_c (start this req w).2 = context_loc w.
Proof. by rewrite start_frame. Qed.

End call.

(** The call is the first turn of the dispatch. *)
Lemma run_fetch `{E : Env MwK HK} (this : loc) (req : Request) (w : World) :
  run 1 this req w = fetch this req w.
Proof.
  unfold run, fetch. destruct (start this req w) as [w0 f]. cbn [turns resume].
  by destruct (for_of f 0 w0) as [[w1 t] evs].
Qed.

(** X9.  Whether the handler runs inside the call of [fetch] depends on
    the pipeline alone.  With no middleware registered the call itself
    parses the URL, does the lookup and calls the handler before it
    returns its promise.  When the handler has returned a response the
    promise is still pending at that point, because [return await]
    suspends once, and it has the response of the handler at the next
    turn; the 404, the rejection of a URL that does not parse and what the
    handler throws at its call are settled inside the call.  With at least
    one middleware the call stops at the first [await]: it has called the
    first middleware and nothing else, no handler has run and the promise
    it returns is not resolved. *)
Theorem handler_in_call_iff_no_middleware `{E : Env MwK HK}
    (this : loc) (req : Request) (w : World) :
  (pipeline w this = [] →
     match URL_parse (req_url req) with
     | Some url =>
         fetch this req w
         = match lookup_handler w this (pathname url) (req_method req) with
           | Some h =>
               ((h_call h (context_loc w) (start this req w).1).1,
                after_handler (h_call h (context_loc w) (start this req w).1).2,
                [HandlerCalled h (context_loc w)])
           | None => ((start this req w).1, Resolved notFound, [])
           end
     | None =>
         fetch this req w
         = ((start this req w).1, Rejected (URL_error (req_url req)), [])
     end)
  ∧ (pipeline w this = [] →
     ∀ url h, URL_parse (req_url req) = Some url →
       lookup_handler w this (pathname url) (req_method req) = Some h →
       (fetch this req w).2 = [HandlerCalled h (context_loc w)]
       ∧ (∀ r, (fetch this req w).1.2 ≠ Resolved r)
       ∧ (∀ w2 r, h_call h (context_loc w) (start this req w).1 = (w2, Done r) →
            fetch this req w = (w2, Returning r, [HandlerCalled h (context_loc w)])
            ∧ ∀ m, run (2 + m) this req w
                   = (w2, Resolved r, [HandlerCalled h (context_loc w)]))
       ∧ (∀ w2 e, h_call h (context_loc w) (start this req w).1 = (w2, Raise e) →
            fetch this req w = (w2, Rejected e, [HandlerCalled h (context_loc w)])))
  ∧ (∀ mw P, pipeline w this = mw :: P →
       (∀ h c, HandlerCalled h c ∉ (fetch this req w).2)
       ∧ (∀ r, (fetch this req w).1.2 ≠ Resolved r)
       ∧ (∀ r, (fetch this req w).1.2 ≠ Returning r)
       ∧ (∀ k, (fetch this req w).1.2 ≠ AwaitH k)
       ∧ ((fetch this req w).2 = [MwCalled mw (context_loc w)]
          ∨ (fetch this req w).2
            = [MwCalled mw (context_loc w); MwReturned mw (context_loc w)])).
Proof.
  assert (pipeline w this = [] →
     match URL_parse (req_url req) with
     | Some url =>
         fetch this req w
         = match lookup_handler w this (pathname url) (req_method req) with
           | Some h =>
               ((h_call h (context_loc w) (start this req w).1).1,
                after_handler (h_call h (context_loc w) (start this req w).1).2,
                [HandlerCalled h (context_loc w)])
           | None => ((start this req w).1, Resolved notFound, [])
           end
     | None =>
         fetch this req w
         = ((start this req w).1, Rejected (URL_error (req_url req)), [])
     end) as Hempty.
  { intros HP. rewrite fetch_start. unfold for_of.
    rewrite start_pipeline, HP. rewrite lookup_nil.
    destruct (URL_parse (req_url req)) as [url|] eqn:Hurl.
    + rewrite (route_lookup (start this req w).2 _ url)
        by (rewrite start_req; exact Hurl).
      by rewrite start_this, start_req, start_c, lookup_handler_start.
    + unfold route. by rewrite start_req, Hurl. }
  split_and!.
  - exact Hempty.
  - intros HP url h Hurl Hh. specialize (Hempty HP). rewrite Hurl, Hh in Hempty.
    rewrite Hempty. cbn [fst snd]. split_and!.
    + done.
    + intros r. by destruct (h_call h (context_loc w) (start this req w).1) as [w2 [r'|e|k]].
    + intros w2 r Hcall. rewrite Hcall. split; [done|]. intros m.
      change (2 + m) with (1 + S m). rewrite run_add, run_fetch, Hempty, Hcall.
      cbn [turns resume after_handler fst snd]. rewrite app_nil_r. apply turns_Resolved.
    + intros w2 e Hcall. by rewrite Hcall.
  - intros mw P HP. rewrite fetch_start. unfold for_of.
    rewrite start_pipeline, HP, start_c.
    change ((mw :: P) !! 0) with (Some mw). cbv beta iota.
    destruct (mw_call mw (context_loc w) (start this req w).1) as [w' [[]|e|k]];
      unfold after_mw; rewrite ?start_c; cbn [fst snd].
    + split_and!; [|done|done|done|by right].
      intros h c Hin. apply elem_of_cons in Hin as [?|Hin]; [done|].
      by apply list_elem_of_singleton in Hin.
    + split_and!; [|done|done|done|by left].
      intros h c Hin. by apply list_elem_of_singleton in Hin.
    + split_and!; [|done|done|done|by left].
      intros h c Hin. by apply list_elem_of_singleton in Hin.
Qed.

(** On the example host: an instance with a route and no middleware has
    called its handler when the call returns, its promise is pending then
    and has the response of the handler one turn later; the example
    application, which has one middleware, has called no handler when the
    call returns. *)
Lemma handler_in_call_iff_no_middleware_witness :
  (∃ w2,
     fetch (E := Demo.env) (App.new ∅).1 (Demo.request "GET" "http://localhost/")
       (App.get (App.new ∅).1 "/" 11 (App.new ∅).2)
     = (w2, Returning Demo.created,
        [HandlerCalled 11 (context_loc (App.get (App.new ∅).1 "/" 11 (App.new ∅).2))])
     ∧ run (E := Demo.env) (2 + 0) (App.new ∅).1 (Demo.request "GET" "http://localhost/")
         (App.get (App.new ∅).1 "/" 11 (App.new ∅).2)
       = (w2, Resolved Demo.created,
          [HandlerCalled 11 (context_loc (App.get (App.new ∅).1 "/" 11 (App.new ∅).2))]))
  ∧ ∀ h c, HandlerCalled h c
           ∉ (fetch (E := Demo.env) Demo.app (Demo.request "GET" "http://localhost/")
                Demo.world).2.
Proof.
  split.
  - destruct (handler_in_call_iff_no_middleware (E := Demo.env) (App.new ∅).1
                (Demo.request "GET" "http://localhost/")
                (App.get (App.new ∅).1 "/" 11 (App.new ∅).2)) as (_ & H & _).
    assert (pipeline (App.get (App.new ∅).1 "/" 11 (App.new ∅).2) (App.new ∅).1 = [])
      as HP by (vm_compute; reflexivity).
    destruct (H HP {| pathname := "/"; search := EmptyString; hash := EmptyString |}
                11%positive) as (_ & _ & Hdone & _).
    + vm_compute. reflexivity.
    + vm_compute. reflexivity.
    + eexists. split.
      * eapply (proj1 (Hdone _ Demo.created eq_refl)).
      * eapply (proj2 (Hdone _ Demo.created eq_refl) 0).
  - destruct (handler_in_call_iff_no_middleware (E := Demo.env) Demo.app
                (Demo.request "GET" "http://localhost/") Demo.world) as (_ & _ & H).
    apply (H 1%positive []). vm_compute. reflexivity.
Defined.

(** ** The state a dispatch sees *)

Section context_state.
Implicit Types (w : World) (this : loc) (req : Request).

Lemma start_context this req w :
  (start this req w).1 !! context_loc w
  = Some (CContext {| Context.req := req;
                      Context.data := VRef (scratch_loc w);
                      Context.state := state (app_of w this) |}).
Proof. by rewrite start_world, lookup_insert_eq. Qed.

Lemma start_this_ne this req w : is_Some (w !! this) → this ≠ context_loc w.
Proof. intros [y Hy] ->. by rewrite context_loc_fresh in Hy. Qed.

Lemma app_of_set_state this (v : val) w :
  state (app_of (App.set_state this v w) this) = v
  ∧ routes (app_of (App.set_state this v w) this) = routes (app_of w this)
  ∧ middlewares (app_of (App.set_state this v w) this) = middlewares (app_of w this).
Proof. unfold App.set_state. cbv zeta. by rewrite app_of_insert_eq. Qed.

End context_state.

(** X7.  A dispatch reads [this.state] once, when [fetch] is called, and
    stores the value in its context.  Assigning [app.state] afterwards does
    not reach the context of a dispatch already started; a dispatch started
    after the assignment gets the new value.  Two dispatches with no
    assignment in between hold the same state value, while each has a
    scratch object of its own. *)
Theorem state_is_read_at_the_call (this : loc) (req req' : Request) (w : World) (v : val) :
  is_Some (w !! this) →
  (start this req w).1 !! context_loc w
  = Some (CContext {| Context.req := req;
                      Context.data := VRef (scratch_loc w);
                      Context.state := state (app_of w this) |})
  ∧ App.set_state this v (start this req w).1 !! context_loc w
    = (start this req w).1 !! context_loc w
  ∧ (start this req' (App.set_state this v (start this req w).1)).1
      !! context_loc (App.set_state this v (start this req w).1)
    = Some (CContext {| Context.req := req';
                        Context.data :=
                          VRef (scratch_loc (App.set_state this v (start this req w).1));
                        Context.state := v |})
  ∧ (start this req' (start this req w).1).1 !! context_loc (start this req w).1
    = Some (CContext {| Context.req := req';
                        Context.data := VRef (scratch_loc (start this req w).1);
                        Context.state := state (app_of w this) |})
  ∧ (start this req' (start this req w).1).1 !! context_loc w
    = (start this req w).1 !! context_loc w
  ∧ scratch_loc (start this req w).1 ≠ scratch_loc w
  ∧ context_loc (start this req w).1 ≠ context_loc w.
Proof.
  intros Hthis. pose proof (start_this_ne this req w Hthis) as Hne.
  pose proof (start_context this req w) as Hc.
  split_and!.
  - done.
  - unfold App.set_state. cbv zeta. by rewrite lookup_insert_ne.
  - rewrite start_context. by destruct (app_of_set_state this v (start this req w).1) as [-> _].
  - by rewrite start_context, app_of_start.
  - rewrite Hc. by apply (start_extends this req' (start this req w).1).
  - intros Heq. pose proof (fresh_None (start this req w).1) as Hn.
    unfold scratch_loc in Heq. rewrite Heq in Hn.
    rewrite start_world in Hn.
    rewrite lookup_insert_ne in Hn by apply not_eq_sym, scratch_context_ne.
    unfold scratch_loc in Hn. by rewrite lookup_insert_eq in Hn.
  - intros Heq. pose proof (context_loc_fresh (start this req w).1) as Hn.
    rewrite Heq in Hn. congruence.
Qed.

(** On the example application: a first request, then [app.state = 7],
    then a second request.  The first context keeps the state object the
    application was made with, the second holds [7]. *)
Lemma state_is_read_at_the_call_witness :
  App.set_state Demo.app (VNum 7)
    (start Demo.app (Demo.request "GET" "http://localhost/") Demo.world).1
    !! context_loc Demo.world
  = (start Demo.app (Demo.request "GET" "http://localhost/") Demo.world).1
    !! context_loc Demo.world
  ∧ (start Demo.app (Demo.request "PUT" "http://localhost/")
       (App.set_state Demo.app (VNum 7)
          (start Demo.app (Demo.request "GET" "http://localhost/") Demo.world).1)).1
      !! context_loc
           (App.set_state Demo.app (VNum 7)
              (start Demo.app (Demo.request "GET" "http://localhost/") Demo.world).1)
    = Some (CContext
              {| Context.req := Demo.request "PUT" "http://localhost/";
                 Context.data :=
                   VRef (scratch_loc
                           (App.set_state Demo.app (VNum 7)
                              (start Demo.app (Demo.request "GET" "http://localhost/")
                                 Demo.world).1));
                 Context.state := VNum 7 |}).
Proof.
  assert (is_Some (Demo.world !! Demo.app)) as Hthis
    by (eexists; vm_compute; reflexivity).
  destruct (state_is_read_at_the_call Demo.app (Demo.request "GET" "http://localhost/")
              (Demo.request "PUT" "http://localhost/") Demo.world (VNum 7) Hthis)
    as (_ & H2 & H3 & _).
  split; [exact H2|exact H3].
Defined.

(** ** Chains of [withState] *)

Section chains.
Implicit Types (w : World) (this a n : loc) (st : val) (sts : list val).

Lemma shared_extends w (w' : World) a n : shared w a n → extends w w' → shared w' a n.
Proof.
  intros (Ha & Hn & Hr & Hm) Hext.
  destruct (wf_this _ _ Ha) as [ca Hca]. destruct (wf_this _ _ Hn) as [cn Hcn].
  split_and!; [by eapply wf_app_extends|by eapply wf_app_extends| |];
    rewrite (app_of_Some _ _ _ (Hext _ _ Hca)), (app_of_Some _ _ _ (Hext _ _ Hcn));
    by rewrite (app_of_Some _ _ _ Hca), (app_of_Some _ _ _ Hcn) in Hr, Hm.
Qed.

Lemma shared_trans w a n (m : loc) : shared w a n → shared w a m → shared w n m.
Proof.
  intros (Ha & Hn & Hr & Hm) (_ & Hm' & Hr' & Hm''). split_and!; try done; congruence.
Qed.

(** An instance made from one that shares with [a] shares with [a]. *)
Lemma withState_shared w a n st :
  shared w a n →
  shared (App.withState n st w).2 a (App.withState n st w).1
  ∧ extends w (App.withState n st w).2
  ∧ w !! (App.withState n st w).1 = None
  ∧ state (app_of (App.withState n st w).2 (App.withState n st w).1) = st.
Proof.
  intros Hsh. pose proof Hsh as (Ha & Hn & Hr & Hm).
  destruct (withState_spec n st w Hn) as (Hfresh & Hext & Hnew).
  destruct (App.withState n st w) as [m w']; simpl in *.
  pose proof (shared_extends _ _ _ _ Hsh Hext) as (Ha' & Hn' & Hr' & Hm').
  destruct (wf_this _ _ Hn) as [cn Hcn].
  assert (app_of w' n = app_of w n) as Hn_eq
    by by rewrite (app_of_Some _ _ _ (Hext _ _ Hcn)), (app_of_Some _ _ _ Hcn).
  split_and!; try done.
  - split_and!; [done| |by rewrite (app_of_Some _ _ _ Hnew); simpl; congruence
                       |by rewrite (app_of_Some _ _ _ Hnew); simpl; congruence].
    apply (wf_app_alias w' n m _ Hn' Hnew); simpl; congruence.
  - by rewrite (app_of_Some _ _ _ Hnew).
Qed.

Lemma withStates_cons this st sts w :
  withStates this (st :: sts) w
  = ((App.withState this st w).1
       :: (withStates (App.withState this st w).1 sts (App.withState this st w).2).1,
     (withStates (App.withState this st w).1 sts (App.withState this st w).2).2).
Proof.
  cbn [withStates]. destruct (App.withState this st w) as [n w1]. cbn [fst snd].
  by destruct (withStates n sts w1).
Qed.

Lemma withStates_shared sts : ∀ w a n,
  shared w a n →
  extends w (withStates n sts w).2
  ∧ length (withStates n sts w).1 = length sts
  ∧ ∀ i m, (withStates n sts w).1 !! i = Some m →
      shared (withStates n sts w).2 a m
      ∧ w !! m = None
      ∧ Some (state (app_of (withStates n sts w).2 m)) = sts !! i.
Proof.
  induction sts as [|st sts IH]; intros w a n Hsh.
  - simpl. split_and!; [apply extends_refl|done|].
    intros i m Hm. by rewrite lookup_nil in Hm.
  - rewrite withStates_cons.
    destruct (withState_shared w a n st Hsh) as (Hsh1 & Hext1 & Hfresh1 & Hst1).
    destruct (App.withState n st w) as [n1 w1]. cbn [fst snd] in *.
    destruct (IH w1 a n1 Hsh1) as (Hext & Hlen & Hall).
    destruct (withStates n1 sts w1) as [ns w']. cbn [fst snd] in *.
    split_and!; [exact (extends_trans _ _ _ Hext1 Hext)|by rewrite length_cons, Hlen|].
    intros [|i] m Hm; cbn [lookup list_lookup] in Hm |- *.
    + injection Hm as <-. split_and!; [by eapply shared_extends|done|].
      destruct Hsh1 as (_ & Hn1 & _). destruct (wf_this _ _ Hn1) as [c1 Hc1].
      rewrite (app_of_Some _ _ _ (Hext _ _ Hc1)).
      by rewrite (app_of_Some _ _ _ Hc1) in Hst1; subst st.
    + destruct (Hall i m Hm) as (? & Hnone & ?). split_and!; [done| |done].
      destruct (w !! m) as [y|] eqn:Hy; [|done].
      apply Hext1 in Hy. congruence.
Qed.

End chains.

(** X10.  [withState] may be chained: in
    [app.withState(s1).withState(s2)...] every instance, however far down
    the chain, has the [#routes] and [#middlewares] of [app]; each is a
    new object and holds the state it was given.  So what is registered
    through any instance of the chain, or through [app], is found through
    every other, and a middleware added through any of them is in the
    pipeline of all. *)
Theorem withState_chain_shares (this : loc) (sts : list val) (w : World) :
  wf_app w this →
  extends w (withStates this sts w).2
  ∧ length (withStates this sts w).1 = length sts
  ∧ (∀ i n, (withStates this sts w).1 !! i = Some n →
       w !! n = None
       ∧ routes (app_of (withStates this sts w).2 n) = routes (app_of w this)
       ∧ middlewares (app_of (withStates this sts w).2 n) = middlewares (app_of w this)
       ∧ Some (state (app_of (withStates this sts w).2 n)) = sts !! i
       ∧ (∀ path method,
            lookup_handler (withStates this sts w).2 n path method
            = lookup_handler w this path method)
       ∧ pipeline (withStates this sts w).2 n = pipeline w this)
  ∧ (∀ a b, a ∈ this :: (withStates this sts w).1 →
       b ∈ this :: (withStates this sts w).1 →
       (∀ method path h,
          lookup_handler (App.addRoute a method path h (withStates this sts w).2)
            b path method = Some h)
       ∧ (∀ mw,
            pipeline (App.use a mw (withStates this sts w).2) b
            = pipeline w this ++ [mw])).
Proof.
  intros Hwf.
  assert (shared w this this) as Hsh by by split_and!.
  destruct (withStates_shared sts w this this Hsh) as (Hext & Hlen & Hall).
  pose proof (wf_app_extends _ _ _ Hwf Hext) as Hwf'.
  destruct (wf_this _ _ Hwf) as [c Hc].
  assert (app_of (withStates this sts w).2 this = app_of w this) as Happ
    by by rewrite (app_of_Some _ _ _ (Hext _ _ Hc)), (app_of_Some _ _ _ Hc).
  assert (∀ n, n ∈ this :: (withStates this sts w).1 → shared (withStates this sts w).2 this n)
    as Hmem.
  { intros n [->|Hn]%elem_of_cons; [by split_and!|].
    apply list_elem_of_lookup in Hn as [i Hi]. by destruct (Hall i n Hi). }
  split_and!; [done|done| |].
  - intros i n Hn. destruct (Hall i n Hn) as ((_ & Hwfn & Hr & Hm) & Hnone & Hst).
    split_and!; [done|congruence|congruence|done| |].
    + intros path method. unfold lookup_handler. rewrite Hr.
      fold (lookup_handler (withStates this sts w).2 this path method).
      by apply lookup_handler_extends.
    + unfold pipeline. rewrite Hm. fold (pipeline (withStates this sts w).2 this).
      by apply pipeline_extends.
  - intros a b Ha Hb.
    pose proof (shared_trans _ _ _ _ (Hmem a Ha) (Hmem b Hb)) as Hab.
    split.
    + intros method path h. by destruct (shared_lookup_addRoute _ _ _ method path h Hab).
    + intros mw. destruct (shared_pipeline_use _ _ _ mw Hab) as [_ ->].
      destruct (Hmem b Hb) as (_ & _ & _ & Hm). unfold pipeline at 1. rewrite Hm.
      fold (pipeline (withStates this sts w).2 this).
      by rewrite (pipeline_extends w).
Qed.

(** On the example application: in
    [app.withState(1).withState(2)] the second instance (object [13])
    finds the route of [app] and has its pipeline, and a route registered
    through it is found through [app]. *)
Lemma withState_chain_shares_witness :
  lookup_handler (withStates Demo.app [VNum 1; VNum 2] Demo.world).2 13 "/" "GET"
  = Some 10%positive
  ∧ pipeline (withStates Demo.app [VNum 1; VNum 2] Demo.world).2 13 = [1%positive]
  ∧ lookup_handler
      (App.addRoute 13 "PUT" "/x" 11 (withStates Demo.app [VNum 1; VNum 2] Demo.world).2)
      Demo.app "/x" "PUT" = Some 11%positive.
Proof.
  destruct (withState_chain_shares Demo.app [VNum 1; VNum 2] Demo.world Demo_world_wf)
    as (_ & _ & H & H').
  assert ((withStates Demo.app [VNum 1; VNum 2] Demo.world).1 !! 1 = Some 13%positive)
    as Hn by (vm_compute; reflexivity).
  destruct (H 1 13%positive Hn) as (_ & _ & _ & _ & Hl & Hp).
  split_and!.
  - rewrite Hl. vm_compute. reflexivity.
  - rewrite Hp. vm_compute. reflexivity.
  - apply (H' 13%positive Demo.app).
    + apply elem_of_cons. right. apply (list_elem_of_lookup_2 _ 1). exact Hn.
    + apply elem_of_cons. left. reflexivity.
Defined.

(** ** A request served through an instance made by [withState] *)

Lemma shared_reads (w : World) (a n : loc) :
  shared w a n →
  (∀ path method, lookup_handler w n path method = lookup_handler w a path method)
  ∧ pipeline w n = pipeline w a.
Proof.
  intros (_ & _ & Hr & Hm). split.
  - intros path method. unfold lookup_handler. by rewrite Hr.
  - unfold pipeline. by rewrite Hm.
Qed.

(** X12.  A request given to [app.withState(st)] is served as [app] would
    serve it, with the state [st]: for a host whose middleware return at
    their call and leave the registry alone, the dispatch runs the
    pipeline of [app] in order, then calls the handler [app] has for the
    pair (or answers 404 when [app] has none), and the context every one
    of them receives holds [st] as its state. *)
Theorem withState_instance_serves `{E : Env MwK HK}
    (this : loc) (st : val) (req : Request) (w : World) (url : URL) :
  synchronous → leaves_registry →
  wf_app w this →
  URL_parse (req_url req) = Some url →
  (start (App.withState this st w).1 req (App.withState this st w).2).1
    !! context_loc (App.withState this st w).2
  = Some (CContext {| Context.req := req;
                      Context.data := VRef (scratch_loc (App.withState this st w).2);
                      Context.state := st |})
  ∧ ∃ w1, ∀ m,
      run (length (pipeline w this) + S m)
        (App.withState this st w).1 req (App.withState this st w).2
      = match lookup_handler w this (pathname url) (req_method req) with
        | Some h =>
            ((settle m (h_call h (context_loc (App.withState this st w).2) w1)).1,
             return_await m (h_call h (context_loc (App.withState this st w).2) w1),
             calls (context_loc (App.withState this st w).2) (pipeline w this)
               ++ [HandlerCalled h (context_loc (App.withState this st w).2)])
        | None =>
            (w1, Resolved notFound,
             calls (context_loc (App.withState this st w).2) (pipeline w this))
        end.
Proof.
  intros Hsync Hleaves Hwf Hurl.
  assert (shared w this this) as Hsh by by split_and!.
  destruct (withState_shared w this this st Hsh) as (Hsh' & Hext & _ & Hst).
  destruct (shared_reads _ _ _ Hsh') as [Hl Hp].
  assert (pipeline (App.withState this st w).2 (App.withState this st w).1
          = pipeline w this) as Hp'
    by by rewrite Hp, (pipeline_extends w).
  split.
  - by rewrite start_context, Hst.
  - destruct (dispatch_synchronous (App.withState this st w).1 req
                (App.withState this st w).2 url Hsync Hleaves Hurl) as [w1 Hrun].
    exists w1. intros m. specialize (Hrun m).
    rewrite Hp', Hl, (lookup_handler_extends w) in Hrun by done. exact Hrun.
Qed.

(** On the host whose middleware all write the scratch object: a request
    for [/] given to [app.withState(7)] runs middleware [1] and then
    handler [10], both registered through [app]. *)
Lemma withState_instance_serves_witness :
  (run (E := Demo.sync_env) (length (pipeline Demo.world Demo.app) + 1)
     (App.withState Demo.app (VNum 7) Demo.world).1
     (Demo.request "GET" "http://localhost/")
     (App.withState Demo.app (VNum 7) Demo.world).2).2
  = calls (context_loc (App.withState Demo.app (VNum 7) Demo.world).2) [1%positive]
    ++ [HandlerCalled 10 (context_loc (App.withState Demo.app (VNum 7) Demo.world).2)].
Proof.
  destruct (withState_instance_serves (E := Demo.sync_env) Demo.app (VNum 7)
              (Demo.request "GET" "http://localhost/") Demo.world
              {| pathname := "/"; search := EmptyString; hash := EmptyString |}
              Demo_sync_synchronous Demo_sync_leaves_registry Demo_world_wf)
    as (_ & w1 & Hrun).
  - vm_compute. reflexivity.
  - rewrite (Hrun 0).
    assert (lookup_handler Demo.world Demo.app "/" "GET" = Some 10%positive) as Hl
      by (vm_compute; reflexivity).
    assert (pipeline Demo.world Demo.app = [1%positive]) as Hp
      by (vm_compute; reflexivity).
    cbn [pathname req_method Demo.request]. rewrite Hl, Hp. reflexivity.
Defined.

(** ** The order of the loop and the URL *)

(** X11.  The URL of the request is parsed after the loop over the
    middleware, not before.  For a host whose middleware return at their
    call, a request whose URL does not parse still goes through every
    middleware of the pipeline, in order; the promise of [fetch] is then
    rejected with what [new URL] throws, no handler is looked up or
    called, and the promise stays rejected. *)
Theorem unparsable_url_rejects_after_pipeline `{E : Env MwK HK}
    (this : loc) (req : Request) (w : World) :
  synchronous →
  URL_parse (req_url req) = None →
  ∃ w1,
    run (length (pipeline w this)) this req w
    = (w1, Resume (start this req w).2 (length (pipeline w this)),
       calls (context_loc w) (pipeline w this))
    ∧ ∀ m,
        run (length (pipeline w this) + S m) this req w
        = (w1, Rejected (URL_error (req_url req)),
           calls (context_loc w) (pipeline w this)).
Proof.
  intros Hsync Hurl.
  destruct (run_synchronous_exit this req w Hsync) as (w1 & Hrun & Hexit).
  exists w1. split; [done|]. intros m.
  rewrite run_add, Hrun. cbn [turns]. rewrite (resume_exit _ _ _ Hexit).
  unfold route. rewrite start_req, Hurl, app_nil_r. apply turns_Rejected.
Qed.

(** On the host whose middleware all write the scratch object: a request
    with the URL [nope] runs middleware [1] and is then rejected. *)
Lemma unparsable_url_rejects_after_pipeline_witness :
  ∃ w1, ∀ m,
    run (E := Demo.sync_env) (length (pipeline Demo.world Demo.app) + S m)
      Demo.app (Demo.request "GET" "nope") Demo.world
    = (w1, Rejected (URL_error (Env := Demo.sync_env) (req_url (Demo.request "GET" "nope"))),
       calls (context_loc Demo.world) (pipeline Demo.world Demo.app)).
Proof.
  destruct (unparsable_url_rejects_after_pipeline (E := Demo.sync_env) Demo.app
              (Demo.request "GET" "nope") Demo.world Demo_sync_synchronous)
    as (w1 & _ & Hrun).
  - vm_compute. reflexivity.
  - exists w1. exact Hrun.
Defined.

(** X13.  The loop reads the array of middleware as it is at each turn.
    When a dispatch has run every middleware registered so far and is
    about to leave the loop, its next turn does the lookup; but if [use]
    is called on the instance before that turn, the turn calls the
    middleware just added, on the context of the dispatch, and calls no
    handler: a middleware registered while a request is in its loop is
    run for that request. *)
Theorem middleware_added_in_flight_is_run `{E : Env MwK HK}
    (this : loc) (req : Request) (w : World) (n : nat)
    (w1 : World) (f : frame) (i : nat) (log : list event)
    (P : list Middleware) (mw : Middleware) :
  run n this req w = (w1, Resume f i, log) →
  w1 !! middlewares (app_of w1 this) = Some (CArray P) →
  middlewares (app_of w1 this) = middlewares (app_of w this) →
  i = length P →
  resume (Resume f i) w1 = route f w1
  ∧ (resume (Resume f i) (App.use this mw w1)).1.1
    = (mw_call mw (context_loc w) (App.use this mw w1)).1
  ∧ ((resume (Resume f i) (App.use this mw w1)).2 = [MwCalled mw (context_loc w)]
     ∨ (resume (Resume f i) (App.use this mw w1)).2
       = [MwCalled mw (context_loc w); MwReturned mw (context_loc w)])
  ∧ (∀ h c, HandlerCalled h c ∉ (resume (Resume f i) (App.use this mw w1)).2)
  ∧ (∀ r, (resume (Resume f i) (App.use this mw w1)).1.2 ≠ Resolved r).
Proof.
  intros Hrun HP Hm ->.
  destruct (run_frame _ _ _ _ _ _ _ _ Hrun) as [-> _].
  assert (array_of w1 (middlewares (app_of w this)) = P) as Harr
    by by rewrite <-Hm, (array_of_Some _ _ _ HP).
  assert (array_of (App.use this mw w1) (middlewares (app_of w this)) !! length P = Some mw)
    as Hnew.
  { rewrite (use_spec _ _ _ _ HP), <-Hm.
    rewrite (array_of_Some _ _ (P ++ [mw])) by apply lookup_insert_eq.
    by rewrite list_lookup_middle. }
  split.
  { apply resume_exit. cbn [f_mws]. rewrite Harr. by apply lookup_ge_None_2. }
  cbn [resume]. unfold for_of. cbn [f_mws f_c]. rewrite Hnew.
  destruct (mw_call mw (context_loc w) (App.use this mw w1)) as [w2 [[]|e|k]];
    cbn [after_mw fst snd f_c].
  - split_and!; [done|by right| |done].
    intros h c Hin. apply elem_of_cons in Hin as [?|Hin]; [done|].
    by apply list_elem_of_singleton in Hin.
  - split_and!; [done|by left| |done].
    intros h c Hin. by apply list_elem_of_singleton in Hin.
  - split_and!; [done|by left| |done].
    intros h c Hin. by apply list_elem_of_singleton in Hin.
Qed.

(** On the example host: one turn after a request for [/] the only
    middleware has run.  With [app.use(5)] called before the next turn,
    that turn calls middleware [5] and no handler. *)
Lemma middleware_added_in_flight_is_run_witness :
  ∃ w1 f,
    run (E := Demo.env) 1 Demo.app (Demo.request "GET" "http://localhost/") Demo.world
    = (w1, Resume f 1, [MwCalled 1 7; MwReturned 1 7])
    ∧ ∀ h c, HandlerCalled h c
             ∉ (resume (E := Demo.env) (Resume f 1) (App.use Demo.app 5 w1)).2.
Proof.
  eexists _, _. split.
  - vm_compute. reflexivity.
  - eapply (middleware_added_in_flight_is_run (E := Demo.env) Demo.app
              (Demo.request "GET" "http://localhost/") Demo.world 1 _ _ 1 _
              [1%positive] 5%positive).
    + vm_compute. reflexivity.
    + vm_compute. reflexivity.
    + vm_compute. reflexivity.
    + reflexivity.
Defined.
